(** * VelocityController: a PID velocity controller (vmas/simulator/velocity_controller.py)

    A shallow embedding of the controller class and the proofs of its
    specified properties.

    Numbers.  Python floats and torch tensor elements are embedded as real
    numbers [R]: every arithmetic operation is the exact one, rounding and
    the non-finite values inf/nan are outside the model.  The one place where
    Python's arithmetic is partial, the division of a Python number by a
    Python zero, is embedded as the [ZeroDivisionError] it raises.  Statements
    over [R] describe a value by the operations the code performs on it.
    Where a property turns on rounding (the equivalence of the two parameter
    forms), the constructor is embedded a second time over IEEE binary64
    numbers, which is what Python floats are, in the module [Doubles].

    Tensors.  [agent.action.u] and [agent.state.vel] are tensors of shape
    [batch_dim, dim]: a list of rows, one row per batch entry.  Elementwise
    operations between two tensors pair the elements position by position;
    torch refuses shapes that do not broadcast, the embedding pairs the
    common prefix, and the theorems that depend on shapes state them.

    State.  The controller object and the agent object it points to are
    both mutable and the agent is shared with the rest of the simulator, so
    the embedding threads a [Heap] holding the two objects through a state
    and exception monad. *)

From Stdlib Require Import PrimFloat Reals Lra List String.
Import ListNotations.
Open Scope R_scope.

(** ** Tensors *)

Definition row := list R.
Definition tensor := list row.

(** A value held in [accum_errs] or [prev_err], or returned by
    [integralError]: a plain Python number or a tensor. *)
Inductive value : Type :=
| PyNum (x : R)
| Tensor (t : tensor).

Fixpoint zip_with {A B C : Type} (f : A -> B -> C) (l1 : list A) (l2 : list B) : list C :=
  match l1, l2 with
  | a :: l1', b :: l2' => f a b :: zip_with f l1' l2'
  | _, _ => []
  end.

(** Elementwise unary and binary operations. *)
Definition t_map (f : R -> R) (t : tensor) : tensor := map (map f) t.
Definition t_zip (f : R -> R -> R) (t1 t2 : tensor) : tensor :=
  zip_with (zip_with f) t1 t2.

(** [t op v] and [v op t], a Python number being broadcast over the tensor. *)
Definition t_op_v (f : R -> R -> R) (t : tensor) (v : value) : tensor :=
  match v with
  | PyNum x => t_map (fun a => f a x) t
  | Tensor t' => t_zip f t t'
  end.

Definition v_op_t (f : R -> R -> R) (v : value) (t : tensor) : tensor :=
  match v with
  | PyNum x => t_map (fun a => f x a) t
  | Tensor t' => t_zip f t' t
  end.

(** ** The helpers of [vmas.simulator.utils] and [torch] *)

(** [torch.clamp(x, lo, hi)] is [min(max(x, lo), hi)] on every element; when
    [lo > hi] every element becomes [hi]. *)
Definition clamp (lo hi x : R) : R := Rmin (Rmax x lo) hi.

Definition torch_clamp (t : tensor) (lo hi : R) : tensor := t_map (clamp lo hi) t.

(** Modelled from the spec: [vmas.simulator.utils.clamp_tensor], which is not
    part of the source file.  The spec has it clamp the accumulated error
    element-wise, by magnitude, to [[-windup_limit, +windup_limit]]. *)
Definition clamp_tensor (t : tensor) (limit : R) : tensor :=
  torch_clamp t (- limit) limit.

Definition sum_sq (r : row) : R := fold_right (fun x acc => x * x + acc) 0 r.

(** The Euclidean norm of one row (one batch entry). *)
Definition vector_norm (r : row) : R := sqrt (sum_sq r).

(** Modelled from the spec: [vmas.simulator.utils.clamp_with_norm], which is
    not part of the source file.  The spec has it clamp the force by Euclidean
    norm to the given magnitude, direction preserved and magnitude capped: a
    row whose norm exceeds the cap is rescaled to the cap, any other row is
    left as it is. *)
Definition clamp_row_with_norm (max_norm : R) (r : row) : row :=
  if Rlt_dec max_norm (vector_norm r)
  then map (fun x => x / vector_norm r * max_norm) r
  else r.

Definition clamp_with_norm (t : tensor) (max_norm : R) : tensor :=
  map (clamp_row_with_norm max_norm) t.

(** ** Exceptions, the heap and the monad *)

Inductive exn : Type :=
| Exception (msg : string)
| ZeroDivisionError
| IndexError
| AttributeError (attr : string).

Inductive result (A : Type) : Type :=
| Ok (a : A)
| Raise (e : exn).
Arguments Ok {A} a.
Arguments Raise {A} e.

(** The part of [vmas.simulator.core.Agent] that the controller reads and
    writes: [action.u], [state.vel], [mass], [max_f] and [f_range]; the last
    two may be [None]. *)
Record Agent : Type := mkAgent {
  action_u : tensor;
  state_vel : tensor;
  mass : R;
  max_f : option R;
  f_range : option R
}.

(** The attributes of a controller object.  [integrator_windup_cutoff] is only
    assigned when the integrator is in use, so it may be absent. *)
Record VelocityController : Type := mkController {
  dt : R;
  ctrl_gain : R;
  integralTs : R;
  derivativeTs : R;
  use_integrator : bool;
  integrator_windup_cutoff : option R;
  accum_errs : value;
  prev_err : value
}.

(** The two objects a call works on: [self] and the agent [self.agent]
    refers to. *)
Record Heap : Type := mkHeap {
  self : VelocityController;
  agent : Agent
}.

(** A computation that reads and writes the heap and may raise; the heap is
    kept as it is at the point of the [raise]. *)
Definition M (A : Type) : Type := Heap -> result A * Heap.

Definition ret {A : Type} (a : A) : M A := fun h => (Ok a, h).
Definition raise {A : Type} (e : exn) : M A := fun h => (Raise e, h).
Definition bind {A B : Type} (m : M A) (k : A -> M B) : M B :=
  fun h => match m h with
           | (Ok a, h') => k a h'
           | (Raise e, h') => (Raise e, h')
           end.

Declare Scope py_scope.
Delimit Scope py_scope with py.
Notation "x <- m ;; k" := (bind m (fun x => k))
  (at level 61, m at next level, right associativity) : py_scope.
Notation "m ;;; k" := (bind m (fun _ => k))
  (at level 61, right associativity) : py_scope.

Definition get_self : M VelocityController := fun h => (Ok (self h), h).
Definition get_agent : M Agent := fun h => (Ok (agent h), h).
Definition set_self (f : VelocityController -> VelocityController) : M unit :=
  fun h => (Ok tt, mkHeap (f (self h)) (agent h)).
Definition set_agent (f : Agent -> Agent) : M unit :=
  fun h => (Ok tt, mkHeap (self h) (f (agent h))).
Definition lift {A : Type} (r : result A) : M A := fun h => (r, h).

(** Field updates. *)
Definition with_accum_errs (v : value) (c : VelocityController) : VelocityController :=
  mkController (dt c) (ctrl_gain c) (integralTs c) (derivativeTs c)
               (use_integrator c) (integrator_windup_cutoff c) v (prev_err c).

Definition with_prev_err (v : value) (c : VelocityController) : VelocityController :=
  mkController (dt c) (ctrl_gain c) (integralTs c) (derivativeTs c)
               (use_integrator c) (integrator_windup_cutoff c) (accum_errs c) v.

Definition with_action_u (u : tensor) (a : Agent) : Agent :=
  mkAgent u (state_vel a) (mass a) (max_f a) (f_range a).

(** Python's [x / y] on numbers. *)
Definition py_div (x y : R) : result R :=
  if Req_dec_T y 0 then Raise ZeroDivisionError else Ok (x / y).

(** [ctrl_params[i]]. *)
Definition index (l : list R) (i : nat) : result R :=
  match nth_error l i with
  | Some x => Ok x
  | None => Raise IndexError
  end.

Definition rbind {A B : Type} (r : result A) (k : A -> result B) : result B :=
  match r with
  | Ok a => k a
  | Raise e => Raise e
  end.

Notation "x <-- r ; k" := (rbind r (fun x => k))
  (at level 61, r at next level, right associativity) : py_scope.

Open Scope py_scope.

(** ** The class *)

(** [reset], as it acts on the controller object. *)
Definition reset_self (c : VelocityController) : VelocityController :=
  with_prev_err (PyNum 0) (with_accum_errs (PyNum 0) c).

Definition reset : M unit := set_self reset_self.

(** The message of the exception raised for an unknown [pid_form]. *)
Definition pid_form_message : string := "PID form is either standard or parallel.".

(** The constructor.  It reads [agent.max_f] and builds the controller
    object; nothing else in the heap is written. *)
Definition __init__ (agent : Agent) (dt : R) (ctrl_params : list R) (pid_form : string)
  : result VelocityController :=
  ctrl_gain <-- index ctrl_params 0 ;
  ts <-- (if (pid_form =? "standard")%string then
            integralTs <-- index ctrl_params 1 ;
            derivativeTs <-- index ctrl_params 2 ;
            Ok (integralTs, derivativeTs)
          else if (pid_form =? "parallel")%string then
            p1 <-- index ctrl_params 1 ;
            integralTs <-- (if Req_dec_T p1 0 then Ok 0
                            else p1' <-- index ctrl_params 1 ; py_div ctrl_gain p1') ;
            p2 <-- index ctrl_params 2 ;
            derivativeTs <-- py_div p2 ctrl_gain ;
            Ok (integralTs, derivativeTs)
          else Raise (Exception pid_form_message)) ;
  wu <-- (if Req_dec_T (fst ts) 0 then Ok (false, None)
          else
            let fmax := match max_f agent with Some f => f | None => 2 end in
            cutoff <-- py_div (0.5 * fmax * fst ts) (dt * ctrl_gain) ;
            Ok (true, Some cutoff)) ;
  Ok (reset_self
        (mkController dt ctrl_gain (fst ts) (snd ts) (fst wu) (snd wu) (PyNum 0) (PyNum 0))).

(** Reading [self.integrator_windup_cutoff]. *)
Definition get_integrator_windup_cutoff : M R :=
  c <- get_self ;;
  match integrator_windup_cutoff c with
  | Some w => ret w
  | None => raise (AttributeError "integrator_windup_cutoff")
  end.

Definition integralError (err : tensor) : M value :=
  c <- get_self ;;
  if negb (use_integrator c) then ret (PyNum 0)
  else
    let acc := v_op_t Rplus (accum_errs c) (t_map (Rmult (dt c)) err) in
    set_self (with_accum_errs (Tensor acc)) ;;;
    cutoff <- get_integrator_windup_cutoff ;;
    let acc := clamp_tensor acc cutoff in
    set_self (with_accum_errs (Tensor acc)) ;;;
    k <- lift (py_div 1 (integralTs c)) ;;
    ret (Tensor (t_map (Rmult k) acc)).

Definition rateError (err : tensor) : M tensor :=
  c <- get_self ;;
  let e := t_map (fun x => x / dt c)
             (t_map (Rmult (derivativeTs c)) (t_op_v Rminus err (prev_err c))) in
  set_self (with_prev_err (Tensor err)) ;;;
  ret e.

Definition process_force : M unit :=
  a <- get_agent ;;
  let des_vel := action_u a in
  let cur_vel := state_vel a in
  let err := t_zip Rminus des_vel cur_vel in
  c <- get_self ;;
  i <- integralError err ;;
  d <- rateError err ;;
  let u := t_map (Rmult (ctrl_gain c)) (t_zip Rplus (t_op_v Rplus err i) d) in
  a <- get_agent ;;
  let u := t_map (fun x => x * mass a) u in
  let u := match max_f a with
           | Some m => clamp_with_norm u m
           | None => u
           end in
  let u := match f_range a with
           | Some r => torch_clamp u (- r) r
           | None => u
           end in
  set_agent (with_action_u u).

(** ** Call sequences *)

(** What can happen to the heap after construction: the simulator writes the
    agent (new action, new velocity, new limits), or calls one of the two
    public methods.  A call that raises leaves the heap as it was at the
    [raise]. *)
Inductive call : Type :=
| Reset
| ProcessForce
| WriteAgent (a : Agent).

Definition exec (h : Heap) (k : call) : Heap :=
  match k with
  | Reset => snd (reset h)
  | ProcessForce => snd (process_force h)
  | WriteAgent a => mkHeap (self h) a
  end.

Definition run (ks : list call) (h : Heap) : Heap := fold_left exec ks h.

(** One simulation tick: the simulator stores the desired velocity in
    [action.u] and the current velocity in [state.vel], the controller is
    called, and the force is read back from [action.u]. *)
Definition set_inputs (inp : tensor * tensor) (a : Agent) : Agent :=
  mkAgent (fst inp) (snd inp) (mass a) (max_f a) (f_range a).

Definition tick (inp : tensor * tensor) (h : Heap) : Heap :=
  snd (process_force (mkHeap (self h) (set_inputs inp (agent h)))).

Fixpoint forces (inps : list (tensor * tensor)) (h : Heap) : list tensor :=
  match inps with
  | [] => []
  | inp :: inps' => let h' := tick inp h in action_u (agent h') :: forces inps' h'
  end.

Fixpoint ticks (inps : list (tensor * tensor)) (h : Heap) : Heap :=
  match inps with
  | [] => h
  | inp :: inps' => ticks inps' (tick inp h)
  end.

(** ** Definitions used in the statements *)

(** The two force limits of the agent, the norm limit first and the
    per-component range second. *)
Definition norm_limit (m : option R) (u : tensor) : tensor :=
  match m with
  | Some f => clamp_with_norm u f
  | None => u
  end.

Definition range_limit (r : option R) (u : tensor) : tensor :=
  match r with
  | Some f => torch_clamp u (- f) f
  | None => u
  end.

(** Every element of a value is at most [w] in magnitude. *)
Definition bounded (w : R) (v : value) : Prop :=
  match v with
  | PyNum x => Rabs x <= w
  | Tensor t => Forall (Forall (fun x => Rabs x <= w)) t
  end.

(** The controller attributes that are fixed at construction. *)
Definition same_parameters (c c' : VelocityController) : Prop :=
  dt c' = dt c /\ ctrl_gain c' = ctrl_gain c /\
  integralTs c' = integralTs c /\ derivativeTs c' = derivativeTs c /\
  use_integrator c' = use_integrator c /\
  integrator_windup_cutoff c' = integrator_windup_cutoff c.

(** The attributes a constructed controller always has together. *)
Definition well_formed (c : VelocityController) : Prop :=
  if use_integrator c
  then integralTs c <> 0 /\ exists w, integrator_windup_cutoff c = Some w
  else integrator_windup_cutoff c = None.

(** The derivative term, element by element. *)
Definition derivative_term (Td dt : R) (err : tensor) (prev : value) : tensor :=
  t_op_v (fun e p => Td * (e - p) / dt) err prev.

(** The force limit the windup cutoff is computed from. *)
Definition force_limit (a : Agent) : R :=
  match max_f a with
  | Some f => f
  | None => 2
  end.

(** The last part of the constructor, common to the two forms. *)
Definition finish_init (a : Agent) (d kP Ti Td : R) : result VelocityController :=
  if Req_dec_T Ti 0
  then Ok (mkController d kP Ti Td false None (PyNum 0) (PyNum 0))
  else if Req_dec_T (d * kP) 0
       then Raise ZeroDivisionError
       else Ok (mkController d kP Ti Td true
                  (Some (0.5 * force_limit a * Ti / (d * kP))) (PyNum 0) (PyNum 0)).

(** The exception of the constructor for an unknown form. *)
Definition InvalidConfiguration : exn := Exception pid_form_message.

(** Entry [i] of a batched tensor, as the one-row tensor a single-entry
    controller works on. *)
Definition entry (i : nat) (t : tensor) : tensor :=
  match nth_error t i with
  | Some r => [r]
  | None => []
  end.

Definition entry_value (i : nat) (v : value) : value :=
  match v with
  | PyNum x => PyNum x
  | Tensor t => Tensor (entry i t)
  end.

(** The single-entry controller that holds slot [i] of the state of [c]. *)
Definition entry_controller (i : nat) (c : VelocityController) : VelocityController :=
  mkController (dt c) (ctrl_gain c) (integralTs c) (derivativeTs c)
               (use_integrator c) (integrator_windup_cutoff c)
               (entry_value i (accum_errs c)) (entry_value i (prev_err c)).

Definition entry_agent (i : nat) (a : Agent) : Agent :=
  mkAgent (entry i (action_u a)) (entry i (state_vel a)) (mass a) (max_f a) (f_range a).

Definition entry_heap (i : nat) (h : Heap) : Heap :=
  mkHeap (entry_controller i (self h)) (entry_agent i (agent h)).

Definition entry_input (i : nat) (inp : tensor * tensor) : tensor * tensor :=
  (entry i (fst inp), entry i (snd inp)).

Definition entry_result (i : nat) (r : result value) : result value :=
  match r with
  | Ok v => Ok (entry_value i v)
  | Raise e => Raise e
  end.

(** ** Definitions used in the further properties *)

(** The shape of a tensor: the length of each of its rows. *)
Definition shape (t : tensor) : list nat := map (@List.length R) t.

(** A stored value fits a shape when it is a plain number, which broadcasts
    over any tensor, or a tensor of that shape. *)
Definition fits (s : list nat) (v : value) : Prop :=
  match v with
  | PyNum _ => True
  | Tensor t => shape t = s
  end.

(** The two limits of [process_force], in the order of the source. *)
Definition limits (a : Agent) (u : tensor) : tensor :=
  range_limit (f_range a) (norm_limit (max_f a) u).

(** The proportional part of the force before the limits. *)
Definition proportional_force (a : Agent) (kP : R) (inp : tensor * tensor) : tensor :=
  t_map (fun x => mass a * kP * x) (t_zip Rminus (fst inp) (snd inp)).

(** The agent's two tensors have shape [s], as every tensor of one simulated
    world has. *)
Definition agent_has_shape (s : list nat) (a : Agent) : Prop :=
  shape (action_u a) = s /\ shape (state_vel a) = s.

(** A call that leaves the agent's tensors in shape [s]. *)
Definition call_has_shape (s : list nat) (k : call) : Prop :=
  match k with
  | WriteAgent a => agent_has_shape s a
  | Reset | ProcessForce => True
  end.

(** ** The constructor over IEEE doubles *)

(** The constructor again, with Python's floats as the binary64 numbers they
    are: every operation rounds as the machine does.  The structure is that
    of [__init__] above, line by line. *)
Module Doubles.

(** The one attribute of the agent that the constructor reads. *)
Record Agent : Type := mkAgent {
  max_f : option float
}.

Record VelocityController : Type := mkController {
  dt : float;
  ctrl_gain : float;
  integralTs : float;
  derivativeTs : float;
  use_integrator : bool;
  integrator_windup_cutoff : option float;
  accum_errs : float;
  prev_err : float
}.

(** Python's [x / y] on floats: a zero divisor of either sign raises. *)
Definition py_div (x y : float) : result float :=
  if (y =? 0)%float then Raise ZeroDivisionError else Ok (x / y)%float.

Definition index (l : list float) (i : nat) : result float :=
  match nth_error l i with
  | Some x => Ok x
  | None => Raise IndexError
  end.

Definition __init__ (agent : Agent) (dt : float) (ctrl_params : list float)
           (pid_form : string) : result VelocityController :=
  ctrl_gain <-- index ctrl_params 0 ;
  ts <-- (if (pid_form =? "standard")%string then
            integralTs <-- index ctrl_params 1 ;
            derivativeTs <-- index ctrl_params 2 ;
            Ok (integralTs, derivativeTs)
          else if (pid_form =? "parallel")%string then
            p1 <-- index ctrl_params 1 ;
            integralTs <-- (if (p1 =? 0)%float then Ok 0%float
                            else p1' <-- index ctrl_params 1 ; py_div ctrl_gain p1') ;
            p2 <-- index ctrl_params 2 ;
            derivativeTs <-- py_div p2 ctrl_gain ;
            Ok (integralTs, derivativeTs)
          else Raise (Exception pid_form_message)) ;
  wu <-- (if (fst ts =? 0)%float then Ok (false, None)
          else
            let fmax := match max_f agent with Some f => f | None => 2%float end in
            cutoff <-- py_div (0.5 * fmax * fst ts)%float (dt * ctrl_gain)%float ;
            Ok (true, Some cutoff)) ;
  Ok (mkController dt ctrl_gain (fst ts) (snd ts) (fst wu) (snd wu) 0%float 0%float).

End Doubles.

(** ** Tactics *)

(** Decides the comparisons of concrete numbers left in the goal. *)
Ltac decide_reals :=
  repeat match goal with
    | |- context [Req_dec_T ?x ?y] => destruct (Req_dec_T x y); [try (exfalso; lra) | try (exfalso; lra)]
    | |- context [Rlt_dec ?x ?y] => destruct (Rlt_dec x y); [try (exfalso; lra) | try (exfalso; lra)]
    end.

Ltac decide_clamps :=
  unfold clamp, Rmin, Rmax;
  repeat match goal with
    | |- context [Rle_dec ?x ?y] =>
        lazymatch x with
        | context [Rle_dec _ _] => fail
        | _ => destruct (Rle_dec x y); try lra
        end
    end.

(** ** Basic facts *)

Lemma same_parameters_refl c : same_parameters c c.
Proof. repeat split. Qed.

Lemma same_parameters_trans c1 c2 c3 :
  same_parameters c1 c2 -> same_parameters c2 c3 -> same_parameters c1 c3.
Proof.
  unfold same_parameters; intros (A1 & A2 & A3 & A4 & A5 & A6) (B1 & B2 & B3 & B4 & B5 & B6).
  repeat split; congruence.
Qed.

Lemma integralError_same_parameters err h :
  same_parameters (self h) (self (snd (integralError err h))) /\
  prev_err (self (snd (integralError err h))) = prev_err (self h) /\
  agent (snd (integralError err h)) = agent h.
Proof.
  unfold integralError, get_integrator_windup_cutoff, bind, get_self, set_self, raise, lift, ret.
  destruct (use_integrator (self h)); simpl.
  - destruct (integrator_windup_cutoff (self h)) eqn:W; simpl.
    + destruct (py_div 1 (integralTs (self h))); simpl;
        repeat split; trivial.
    + repeat split; trivial.
  - repeat split.
Qed.

Lemma rateError_eq err h :
  rateError err h =
  (Ok (t_map (fun x => x / dt (self h))
         (t_map (Rmult (derivativeTs (self h))) (t_op_v Rminus err (prev_err (self h))))),
   mkHeap (with_prev_err (Tensor err) (self h)) (agent h)).
Proof. reflexivity. Qed.

(** [process_force] in terms of its two internal calls. *)
Lemma process_force_eq h :
  let err := t_zip Rminus (action_u (agent h)) (state_vel (agent h)) in
  process_force h =
  match integralError err h with
  | (Raise e, h1) => (Raise e, h1)
  | (Ok i, h1) =>
      match rateError err h1 with
      | (Raise e, h2) => (Raise e, h2)
      | (Ok d, h2) =>
          (Ok tt,
           mkHeap (self h2)
             (with_action_u
                (range_limit (f_range (agent h2))
                   (norm_limit (max_f (agent h2))
                      (t_map (fun x => x * mass (agent h2))
                         (t_map (Rmult (ctrl_gain (self h)))
                            (t_zip Rplus (t_op_v Rplus err i) d)))))
                (agent h2)))
      end
  end.
Proof.
  intro err. unfold process_force, bind at 1 2 3, get_agent at 1, get_self at 1.
  fold err. unfold bind at 1.
  destruct (integralError err h) as [[i|e] h1]; [|reflexivity].
  unfold bind at 1. rewrite rateError_eq.
  reflexivity.
Qed.

Lemma process_force_keeps (h : Heap) :
  agent (snd (process_force h))
  = with_action_u (action_u (agent (snd (process_force h)))) (agent h) /\
  same_parameters (self h) (self (snd (process_force h))).
Proof.
  rewrite process_force_eq.
  set (err := t_zip Rminus (action_u (agent h)) (state_vel (agent h))).
  destruct (integralError_same_parameters err h) as (P & _ & A).
  destruct (integralError err h) as [[i|e] h1]; simpl in *.
  - rewrite A. split; [reflexivity | exact P].
  - rewrite A. split; [now destruct (agent h) | exact P].
Qed.

(** ** C1: what a call of [process_force] changes *)

(** The desired velocity is read from [agent.action.u], and the force is
    written to that same attribute: with gain 2, desired velocity 1 and
    current velocity 0 the call replaces the 1 by the force 2. *)
Lemma process_force_overwrites_desired_velocity :
  let a := mkAgent [[1]] [[0]] 1 None None in
  exists c, __init__ a 1 [2; 0; 0] "standard" = Ok c /\
            action_u (agent (snd (process_force (mkHeap c a)))) = [[2]] /\
            action_u (agent (snd (process_force (mkHeap c a)))) <> action_u a.
Proof.
  intro a. unfold __init__. simpl. decide_reals. simpl.
  eexists; split; [reflexivity|].
  assert (E : action_u
                (agent (snd (process_force
                   (mkHeap (reset_self (mkController 1 2 0 0 false None (PyNum 0) (PyNum 0))) a))))
              = [[2]]).
  { cbn. repeat f_equal. lra. }
  split; [exact E|].
  rewrite E. cbn. intro H. assert (H2 : 2 = 1) by congruence. lra.
Qed.

(** C1 (amended): a call of [process_force] writes [agent.action.u], the
    attribute that held the desired velocity, and the controller's
    [accum_errs] and [prev_err]; the agent's [state.vel], [mass], [max_f] and
    [f_range] and the controller's parameters are left as they were, whether
    the call returns or raises. *)
Theorem process_force_frame (h : Heap) :
  let h' := snd (process_force h) in
  state_vel (agent h') = state_vel (agent h) /\
  mass (agent h') = mass (agent h) /\
  max_f (agent h') = max_f (agent h) /\
  f_range (agent h') = f_range (agent h) /\
  same_parameters (self h) (self h').
Proof.
  intro h'. subst h'.
  destruct (process_force_keeps h) as (A & P). rewrite A. simpl. auto.
Qed.

(** ** Elementwise operations *)

Lemma map_zip_with {A B C D : Type} (g : C -> D) (f : A -> B -> C) l1 l2 :
  map g (zip_with f l1 l2) = zip_with (fun a b => g (f a b)) l1 l2.
Proof.
  revert l2; induction l1 as [|a l1 IH]; intros [|b l2]; simpl; trivial.
  now rewrite IH.
Qed.

Lemma zip_with_ext {A B C : Type} (f g : A -> B -> C) l1 l2 :
  (forall a b, f a b = g a b) -> zip_with f l1 l2 = zip_with g l1 l2.
Proof.
  intro E. revert l2; induction l1 as [|a l1 IH]; intros [|b l2]; simpl; trivial.
  now rewrite E, IH.
Qed.

Lemma t_map_t_map f g t : t_map f (t_map g t) = t_map (fun x => f (g x)) t.
Proof.
  unfold t_map. rewrite map_map. apply map_ext. intro r. apply map_map.
Qed.

Lemma t_map_ext f g t : (forall x, f x = g x) -> t_map f t = t_map g t.
Proof.
  intro E. unfold t_map. apply map_ext. intro r. now apply map_ext.
Qed.

Lemma t_map_t_zip g f t1 t2 :
  t_map g (t_zip f t1 t2) = t_zip (fun a b => g (f a b)) t1 t2.
Proof.
  unfold t_map, t_zip. rewrite map_zip_with.
  apply zip_with_ext. intros r1 r2. apply map_zip_with.
Qed.

Lemma t_map_t_op_v g f t v :
  t_map g (t_op_v f t v) = t_op_v (fun a b => g (f a b)) t v.
Proof.
  destruct v; simpl; [apply t_map_t_map | apply t_map_t_zip].
Qed.

Lemma Forall_zip_with {A B C : Type} (P : C -> Prop) (f : A -> B -> C) l1 l2 :
  (forall a b, P (f a b)) -> Forall P (zip_with f l1 l2).
Proof.
  intro H. revert l2; induction l1 as [|a l1 IH]; intros [|b l2]; simpl; auto.
Qed.

Lemma Forall_t_map (P : R -> Prop) f t :
  (forall x, P (f x)) -> Forall (Forall P) (t_map f t).
Proof.
  intro H. unfold t_map. apply Forall_forall. intros r Hr.
  apply in_map_iff in Hr as (r' & <- & _).
  apply Forall_forall. intros x Hx. apply in_map_iff in Hx as (x' & <- & _). apply H.
Qed.

Lemma Forall_t_op_v (P : R -> Prop) f t v :
  (forall a b, P (f a b)) -> Forall (Forall P) (t_op_v f t v).
Proof.
  intro H. destruct v; simpl.
  - apply Forall_t_map. intro; apply H.
  - unfold t_zip. apply Forall_zip_with. intros r1 r2. now apply Forall_zip_with.
Qed.

(** ** Well-formed controllers *)

Lemma integralError_returns err h :
  well_formed (self h) ->
  exists i h1, integralError err h = (Ok i, h1).
Proof.
  unfold well_formed, integralError, get_integrator_windup_cutoff, bind, get_self, set_self,
    raise, lift, ret, py_div.
  destruct (use_integrator (self h)); simpl.
  - intros (T & w & W). rewrite W.
    destruct (Req_dec_T (integralTs (self h)) 0); [contradiction|].
    eexists; eexists; reflexivity.
  - intros _. eexists; eexists; reflexivity.
Qed.

(** ** A call on a well-formed controller returns *)

Lemma process_force_on_well_formed (h : Heap) :
  well_formed (self h) ->
  let err := t_zip Rminus (action_u (agent h)) (state_vel (agent h)) in
  exists i h1 d h2,
    integralError err h = (Ok i, h1) /\
    rateError err h1 = (Ok d, h2) /\
    process_force h =
    (Ok tt,
     mkHeap (self h2)
       (with_action_u
          (range_limit (f_range (agent h))
             (norm_limit (max_f (agent h))
                (t_map (fun x => mass (agent h) * ctrl_gain (self h) * x)
                   (t_zip Rplus (t_op_v Rplus err i) d))))
          (agent h))).
Proof.
  intros WF err.
  destruct (integralError_returns err h WF) as (i & h1 & E1).
  destruct (integralError_same_parameters err h) as (_ & _ & A).
  rewrite E1 in A; simpl in A.
  exists i, h1. eexists; eexists. split; [exact E1|]. split; [apply rateError_eq|].
  rewrite process_force_eq. fold err. rewrite E1, rateError_eq. simpl.
  rewrite A, t_map_t_map. do 5 f_equal.
  apply t_map_ext. intro x. ring.
Qed.

(** ** C8: the derivative term *)

(** C8: [rateError err] returns [derivativeTs * (err - prev_err) / dt]
    computed with the [prev_err] of before the call and stores [err] in
    [prev_err], whatever [derivativeTs] is; when [derivativeTs] is zero every
    element of the returned tensor is zero and [prev_err] is updated all the
    same, so that after two calls in a row it is the second call's error. *)
Theorem rateError_contract (err : tensor) (h : Heap) :
  rateError err h =
    (Ok (derivative_term (derivativeTs (self h)) (dt (self h)) err (prev_err (self h))),
     mkHeap (with_prev_err (Tensor err) (self h)) (agent h)) /\
  prev_err (self (snd (rateError err h))) = Tensor err /\
  (derivativeTs (self h) = 0 ->
   exists e, fst (rateError err h) = Ok e /\
             Forall (Forall (fun x => x = 0)) e /\
             prev_err (self (snd (rateError err h))) = Tensor err) /\
  (forall err2,
      prev_err (self (snd (rateError err2 (snd (rateError err h))))) = Tensor err2).
Proof.
  rewrite rateError_eq. simpl. repeat split.
  - rewrite t_map_t_map, t_map_t_op_v. reflexivity.
  - intro Z. eexists. split; [reflexivity|]. split; [|reflexivity].
    rewrite t_map_t_map. apply Forall_t_map.
    intro x. rewrite Z. unfold Rdiv. ring.
Qed.

(** Two calls in a row on a controller without derivative action. *)
Lemma rateError_contract_witness :
  let h := mkHeap (mkController (1/10) 1 5 0 true (Some 5) (PyNum 0) (PyNum 0))
                  (mkAgent [[1]] [[0]] 1 None None) in
  derivativeTs (self h) = 0 /\
  (exists e, fst (rateError [[1]] h) = Ok e /\
             Forall (Forall (fun x => x = 0)) e /\
             prev_err (self (snd (rateError [[1]] h))) = Tensor [[1]]) /\
  prev_err (self (snd (rateError [[2]] (snd (rateError [[1]] h))))) = Tensor [[2]].
Proof.
  intro h.
  destruct (rateError_contract [[1]] h) as (_ & _ & Z & T).
  split; [reflexivity|]. split; [exact (Z eq_refl) | exact (T [[2]])].
Defined.

(** ** The constructor *)

Lemma init_standard a d kP Ti Td :
  __init__ a d [kP; Ti; Td] "standard" = finish_init a d kP Ti Td.
Proof.
  unfold __init__, finish_init, py_div, force_limit. simpl.
  destruct (Req_dec_T Ti 0); [reflexivity|].
  destruct (Req_dec_T (d * kP) 0); reflexivity.
Qed.

Lemma init_parallel a d kP kI kD :
  __init__ a d [kP; kI; kD] "parallel" =
  if Req_dec_T kP 0 then Raise ZeroDivisionError
  else finish_init a d kP (if Req_dec_T kI 0 then 0 else kP / kI) (kD / kP).
Proof.
  unfold __init__, finish_init, py_div, force_limit. simpl.
  destruct (Req_dec_T kI 0) as [I|I]; simpl.
  - destruct (Req_dec_T kP 0); simpl; [reflexivity|].
    destruct (Req_dec_T 0 0); [reflexivity | contradiction].
  - destruct (Req_dec_T kI 0); [contradiction|]. simpl.
    destruct (Req_dec_T kP 0); simpl; [reflexivity|].
    destruct (Req_dec_T (kP / kI) 0); [reflexivity|].
    destruct (Req_dec_T (d * kP) 0); reflexivity.
Qed.

Lemma init_other a d ps form :
  form <> "standard"%string -> form <> "parallel"%string ->
  __init__ a d ps form = Raise (Exception pid_form_message) \/
  __init__ a d ps form = Raise IndexError.
Proof.
  intros S P. unfold __init__.
  apply String.eqb_neq in S, P.
  unfold index. destruct (nth_error ps 0); simpl; [|auto].
  rewrite S, P. simpl. auto.
Qed.

Lemma finish_init_ok a d kP Ti Td c :
  finish_init a d kP Ti Td = Ok c ->
  dt c = d /\ ctrl_gain c = kP /\ integralTs c = Ti /\ derivativeTs c = Td /\
  accum_errs c = PyNum 0 /\ prev_err c = PyNum 0 /\
  (Ti = 0 -> use_integrator c = false /\ integrator_windup_cutoff c = None) /\
  (Ti <> 0 -> d * kP <> 0 /\ use_integrator c = true /\
              integrator_windup_cutoff c = Some (0.5 * force_limit a * Ti / (d * kP))).
Proof.
  unfold finish_init.
  destruct (Req_dec_T Ti 0) as [Z|Z].
  - intros [= <-]. simpl. repeat split; trivial; contradiction.
  - destruct (Req_dec_T (d * kP) 0) as [Z'|Z']; [discriminate|].
    intros [= <-]. simpl. repeat split; trivial; contradiction.
Qed.

(** Whatever the parameter list and the form, a constructed controller comes
    out of [finish_init]. *)
Lemma init_ok a d ps form c :
  __init__ a d ps form = Ok c ->
  finish_init a d (ctrl_gain c) (integralTs c) (derivativeTs c) = Ok c.
Proof.
  unfold __init__.
  destruct (index ps 0) as [kP|]; simpl; [|discriminate].
  match goal with
  | |- rbind ?ts _ = _ -> _ => destruct ts as [[Ti Td]|] eqn:TS
  end; simpl; [|discriminate].
  unfold finish_init, py_div, force_limit.
  destruct (Req_dec_T Ti 0) as [Z|Z]; simpl.
  - intros [= <-]. simpl. destruct (Req_dec_T Ti 0); [reflexivity|contradiction].
  - destruct (Req_dec_T (d * kP) 0); simpl; [discriminate|].
    intros [= <-]. simpl.
    destruct (Req_dec_T Ti 0); [contradiction|].
    destruct (Req_dec_T (d * kP) 0); [contradiction|reflexivity].
Qed.

Lemma init_well_formed a d ps form c :
  __init__ a d ps form = Ok c ->
  well_formed c /\ accum_errs c = PyNum 0 /\ prev_err c = PyNum 0.
Proof.
  intro H. apply init_ok in H.
  apply finish_init_ok in H as (_ & _ & _ & _ & A & P & Z & NZ).
  unfold well_formed.
  destruct (Req_dec_T (integralTs c) 0) as [T|T].
  - destruct (Z T) as (U & W). rewrite U. auto.
  - destruct (NZ T) as (_ & U & W). rewrite U. repeat split; eauto.
Qed.

(** ** Call sequences keep the parameters *)

Lemma exec_same_parameters h k : same_parameters (self h) (self (exec h k)).
Proof.
  destruct k; simpl.
  - repeat split.
  - apply (process_force_keeps h).
  - apply same_parameters_refl.
Qed.

Lemma run_same_parameters ks h : same_parameters (self h) (self (run ks h)).
Proof.
  revert h; induction ks as [|k ks IH]; intro h; simpl.
  - apply same_parameters_refl.
  - eapply same_parameters_trans; [apply exec_same_parameters | apply IH].
Qed.

Lemma div_neq_0 (x y : R) : x <> 0 -> y <> 0 -> x / y <> 0.
Proof.
  intros X Y. unfold Rdiv. apply Rmult_integral_contrapositive_currified; trivial.
  now apply Rinv_neq_0_compat.
Qed.

(** ** C5: the parallel form *)

(** C5: in the parallel form [[kP, kI, kD]], when [kP <> 0] the constructor
    sets [integralTs] to 0 if [kI = 0], without dividing by [kI], and to
    [kP / kI] otherwise, and [derivativeTs] to [kD / kP]; the division by
    [kP] is not guarded, so with [kP = 0] what the constructor raises is the
    division's own [ZeroDivisionError], and no other check is made. *)
Theorem parallel_form_conversion (a : Agent) (d kP kI kD : R) :
  (kP = 0 -> __init__ a d [kP; kI; kD] "parallel" = Raise ZeroDivisionError) /\
  (kP <> 0 -> kI = 0 ->
   __init__ a d [kP; kI; kD] "parallel" =
   Ok (mkController d kP 0 (kD / kP) false None (PyNum 0) (PyNum 0))) /\
  (kP <> 0 -> kI <> 0 -> d <> 0 ->
   exists c, __init__ a d [kP; kI; kD] "parallel" = Ok c /\
             integralTs c = kP / kI /\ derivativeTs c = kD / kP /\
             use_integrator c = true) /\
  (forall c, __init__ a d [kP; kI; kD] "parallel" = Ok c ->
             kP <> 0 /\
             integralTs c = (if Req_dec_T kI 0 then 0 else kP / kI) /\
             derivativeTs c = kD / kP).
Proof.
  rewrite init_parallel. repeat split.
  - intro Z. destruct (Req_dec_T kP 0); [reflexivity|contradiction].
  - intros P I. destruct (Req_dec_T kP 0); [contradiction|].
    destruct (Req_dec_T kI 0); [|contradiction].
    unfold finish_init. destruct (Req_dec_T 0 0); [reflexivity|contradiction].
  - intros P I D. destruct (Req_dec_T kP 0); [contradiction|].
    destruct (Req_dec_T kI 0); [contradiction|].
    unfold finish_init.
    destruct (Req_dec_T (kP / kI) 0) as [Z|Z].
    { exfalso. now apply (div_neq_0 kP kI). }
    destruct (Req_dec_T (d * kP) 0) as [Z'|Z'].
    { exfalso. apply Rmult_integral in Z'. tauto. }
    eexists. split; [reflexivity|]. simpl. auto.
  - destruct (Req_dec_T kP 0); [discriminate|assumption].
  - destruct (Req_dec_T kP 0); [discriminate|].
    apply finish_init_ok in H. tauto.
  - destruct (Req_dec_T kP 0); [discriminate|].
    apply finish_init_ok in H. tauto.
Qed.

Lemma parallel_form_conversion_witness :
  let a := mkAgent [[1]] [[0]] 1 None None in
  __init__ a 1 [0; 4; 6] "parallel" = Raise ZeroDivisionError /\
  __init__ a 1 [2; 0; 6] "parallel" =
    Ok (mkController 1 2 0 (6 / 2) false None (PyNum 0) (PyNum 0)) /\
  exists c, __init__ a 1 [2; 4; 6] "parallel" = Ok c /\
            integralTs c = 2 / 4 /\ derivativeTs c = 6 / 2 /\ use_integrator c = true.
Proof.
  intro a. split; [|split].
  - apply (parallel_form_conversion a 1 0 4 6). reflexivity.
  - apply (parallel_form_conversion a 1 2 0 6); [lra | reflexivity].
  - apply (parallel_form_conversion a 1 2 4 6); lra.
Defined.

(** ** C6: the form selector *)

(** C6: on a three-element parameter list the constructor raises the
    form exception exactly when [pid_form] is neither ["standard"] nor
    ["parallel"], and then no controller is produced; for the two valid forms
    it returns a controller whenever [kP <> 0] and [dt <> 0]. *)
Theorem init_form_selector (a : Agent) (d kP x1 x2 : R) (form : string) :
  (__init__ a d [kP; x1; x2] form = Raise InvalidConfiguration <->
   form <> "standard"%string /\ form <> "parallel"%string) /\
  (form <> "standard"%string /\ form <> "parallel"%string ->
   forall c, __init__ a d [kP; x1; x2] form <> Ok c) /\
  (form = "standard"%string \/ form = "parallel"%string ->
   kP <> 0 -> d <> 0 ->
   exists c, __init__ a d [kP; x1; x2] form = Ok c).
Proof.
  assert (Bad : form <> "standard"%string /\ form <> "parallel"%string ->
                __init__ a d [kP; x1; x2] form = Raise InvalidConfiguration).
  { intros (S & P). apply String.eqb_neq in S, P.
    unfold __init__. simpl. rewrite S, P. reflexivity. }
  assert (Good : form = "standard"%string \/ form = "parallel"%string ->
                 __init__ a d [kP; x1; x2] form = Raise ZeroDivisionError \/
                 exists Ti Td, __init__ a d [kP; x1; x2] form = finish_init a d kP Ti Td).
  { intros [-> | ->].
    - right. rewrite init_standard. eauto.
    - rewrite init_parallel. destruct (Req_dec_T kP 0); eauto. }
  assert (Fin : forall Ti Td, finish_init a d kP Ti Td <> Raise InvalidConfiguration).
  { intros Ti Td. unfold finish_init.
    destruct (Req_dec_T Ti 0); [discriminate|].
    destruct (Req_dec_T (d * kP) 0); discriminate. }
  split; [split; [|exact Bad] | split].
  - intro H.
    assert (V : ~ (form = "standard"%string \/ form = "parallel"%string)); [|tauto].
    intro V. destruct (Good V) as [G | (Ti & Td & G)]; rewrite G in H;
      [discriminate | now apply Fin in H].
  - intros H c E. rewrite (Bad H) in E. discriminate.
  - intros V P D.
    assert (DP : d * kP <> 0).
    { intro Z. apply Rmult_integral in Z. tauto. }
    assert (F : forall Ti Td, exists c, finish_init a d kP Ti Td = Ok c).
    { intros Ti Td. unfold finish_init.
      destruct (Req_dec_T Ti 0); [eexists; reflexivity|].
      destruct (Req_dec_T (d * kP) 0); [contradiction | eexists; reflexivity]. }
    destruct V as [-> | ->].
    + rewrite init_standard. apply F.
    + rewrite init_parallel. destruct (Req_dec_T kP 0); [contradiction | apply F].
Qed.

Lemma init_form_selector_witness :
  let a := mkAgent [[1]] [[0]] 1 None None in
  (forall c, __init__ a 1 [1; 5; 0] "serial" <> Ok c) /\
  (exists c, __init__ a 1 [1; 5; 0] "standard" = Ok c) /\
  (exists c, __init__ a 1 [1; 5; 0] "parallel" = Ok c).
Proof.
  intro a. split; [|split].
  - apply (init_form_selector a 1 1 5 0 "serial"). split; discriminate.
  - apply (init_form_selector a 1 1 5 0 "standard"); [left; reflexivity | lra | lra].
  - apply (init_form_selector a 1 1 5 0 "parallel"); [right; reflexivity | lra | lra].
Defined.

(** ** Facts about the state *)

Lemma controller_eq c c' :
  same_parameters c c' ->
  accum_errs c' = accum_errs c -> prev_err c' = prev_err c -> c' = c.
Proof.
  destruct c, c'. unfold same_parameters. simpl.
  intros (? & ? & ? & ? & ? & ?) ? ?. congruence.
Qed.

Lemma clamp_abs (w x : R) : 0 <= w -> Rabs (clamp (- w) w x) <= w.
Proof.
  intro W. unfold clamp, Rmin, Rmax.
  destruct (Rle_dec x (- w)); destruct (Rle_dec _ w); apply Rabs_le; lra.
Qed.

Lemma integralError_accum err h w :
  use_integrator (self h) = true ->
  integrator_windup_cutoff (self h) = Some w ->
  accum_errs (self (snd (integralError err h))) =
  Tensor (clamp_tensor (v_op_t Rplus (accum_errs (self h)) (t_map (Rmult (dt (self h))) err)) w).
Proof.
  intros U W.
  unfold integralError, get_integrator_windup_cutoff, bind, get_self, set_self, raise, lift, ret.
  rewrite U. simpl. rewrite W. simpl.
  destruct (py_div 1 (integralTs (self h))); reflexivity.
Qed.

Lemma integralError_off err h :
  use_integrator (self h) = false -> integralError err h = (Ok (PyNum 0), h).
Proof.
  intro U. unfold integralError, bind, get_self, ret. now rewrite U.
Qed.

Lemma process_force_accum h :
  accum_errs (self (snd (process_force h))) =
  accum_errs (self (snd (integralError
                           (t_zip Rminus (action_u (agent h)) (state_vel (agent h))) h))).
Proof.
  rewrite process_force_eq.
  destruct (integralError _ h) as [[i|e] h1]; reflexivity.
Qed.

Lemma integralError_bounded err h w :
  use_integrator (self h) = true ->
  integrator_windup_cutoff (self h) = Some w ->
  0 <= w ->
  bounded w (accum_errs (self (snd (integralError err h)))).
Proof.
  intros U W P. rewrite (integralError_accum err h w U W). simpl.
  apply Forall_t_map. intro x. now apply clamp_abs.
Qed.

Lemma run_well_formed ks h : well_formed (self h) -> well_formed (self (run ks h)).
Proof.
  destruct (run_same_parameters ks h) as (_ & _ & T & _ & U & W).
  unfold well_formed. now rewrite U, W, T.
Qed.

(** ** Constructed controllers: C7, C9 and C3 *)

Section Constructed.

Variables (a : Agent) (d : R) (ps : list R) (form : string) (c : VelocityController).

Hypothesis constructed : __init__ a d ps form = Ok c.

Lemma constructed_well_formed : well_formed c.
Proof. now apply init_well_formed in constructed. Qed.

Lemma constructed_state : accum_errs c = PyNum 0 /\ prev_err c = PyNum 0.
Proof. now apply init_well_formed in constructed. Qed.

(** On every heap reached from a constructed controller [process_force]
    returns normally. *)
Lemma process_force_returns ks a' :
  fst (process_force (run ks (mkHeap c a'))) = Ok tt.
Proof.
  destruct (process_force_on_well_formed (run ks (mkHeap c a')))
    as (i & h1 & e & h2 & _ & _ & E).
  - apply run_well_formed, constructed_well_formed.
  - now rewrite E.
Qed.

(** C7: when the constructor turns the integrator on, the windup cutoff is
    [0.5 * force_limit * integralTs / (dt * kP)], the force limit being the
    agent's [max_f] when there is one and 2 otherwise; no later call and no
    later change of the agent changes it. *)
Theorem windup_cutoff_value :
  use_integrator c = true ->
  integrator_windup_cutoff c =
    Some (0.5 * (match max_f a with Some f => f | None => 2 end) * integralTs c
          / (d * ctrl_gain c)) /\
  forall ks a',
    integrator_windup_cutoff (self (run ks (mkHeap c a'))) = integrator_windup_cutoff c.
Proof.
  intro U. split.
  - pose proof (init_ok _ _ _ _ _ constructed) as H.
    apply finish_init_ok in H as (_ & _ & _ & _ & _ & _ & Z & NZ).
    destruct (Req_dec_T (integralTs c) 0) as [T|T].
    + destruct (Z T) as (U' & _). congruence.
    + destruct (NZ T) as (_ & _ & W). rewrite W. reflexivity.
  - intros ks a'. apply (run_same_parameters ks (mkHeap c a')).
Qed.

(** C9: [reset] sets [accum_errs] and [prev_err] to zero and changes neither
    the controller's parameters nor the agent; a second [reset] changes
    nothing more; and after any sequence of calls a [reset] brings the
    controller back to the state it was constructed in, so that the next
    call (its integral term, its derivative term, the whole of
    [process_force]) is that of a freshly constructed controller. *)
Theorem reset_contract :
  (forall h,
      fst (reset h) = Ok tt /\
      accum_errs (self (snd (reset h))) = PyNum 0 /\
      prev_err (self (snd (reset h))) = PyNum 0 /\
      same_parameters (self h) (self (snd (reset h))) /\
      agent (snd (reset h)) = agent h /\
      snd (reset (snd (reset h))) = snd (reset h)) /\
  (forall ks a',
      let h := snd (reset (run ks (mkHeap c a'))) in
      self h = c /\
      forall a'' err,
        integralError err (mkHeap (self h) a'') = integralError err (mkHeap c a'') /\
        rateError err (mkHeap (self h) a'') = rateError err (mkHeap c a'') /\
        process_force (mkHeap (self h) a'') = process_force (mkHeap c a'')).
Proof.
  split.
  - intro h. repeat split.
  - intros ks a' h.
    assert (E : self h = c).
    { destruct constructed_state as (A & P).
      apply controller_eq; subst h; simpl.
      - apply (run_same_parameters ks (mkHeap c a')).
      - now rewrite A.
      - now rewrite P. }
    split; [exact E|]. intros a'' err. rewrite E. auto.
Qed.

(** C3 (amended): for a constructed controller with the integrator in use
    and a cutoff that is not negative, every element of [accum_errs] is
    within the cutoff in magnitude after each [integralError] call and at
    every point of every call sequence, the clamped tensor being what is
    stored; with the integrator not in use, [accum_errs] stays the number
    zero for ever and [integralError] returns zero and leaves the heap as it
    is. *)
Theorem windup_bound :
  (use_integrator c = true ->
   exists w, integrator_windup_cutoff c = Some w /\
             (0 <= w ->
              forall ks a',
                bounded w (accum_errs (self (run ks (mkHeap c a')))) /\
                forall err,
                  bounded w (accum_errs
                               (self (snd (integralError err (run ks (mkHeap c a')))))))) /\
  (use_integrator c = false ->
   forall ks a',
     accum_errs (self (run ks (mkHeap c a'))) = PyNum 0 /\
     forall err,
       integralError err (run ks (mkHeap c a')) = (Ok (PyNum 0), run ks (mkHeap c a'))).
Proof.
  pose proof constructed_well_formed as WF. destruct constructed_state as (A & _).
  unfold well_formed in WF. split; intro U; rewrite U in WF.
  - destruct WF as (_ & w & W). exists w. split; [exact W|]. intros P ks a'.
    assert (I : forall ks h,
               use_integrator (self h) = true ->
               integrator_windup_cutoff (self h) = Some w ->
               bounded w (accum_errs (self h)) ->
               bounded w (accum_errs (self (run ks h)))).
    { clear ks. induction ks as [|k ks IH]; intros h Uh Wh Bh; simpl; [exact Bh|].
      destruct (exec_same_parameters h k) as (_ & _ & _ & _ & U' & W').
      apply IH; [congruence | congruence |].
      destruct k; simpl.
      - apply Rabs_le. lra.
      - rewrite process_force_accum. now apply integralError_bounded.
      - exact Bh. }
    destruct (run_same_parameters ks (mkHeap c a')) as (_ & _ & _ & _ & U' & W').
    simpl in U', W'. split.
    + apply I; simpl; trivial. rewrite A. simpl. apply Rabs_le. lra.
    + intro err. apply integralError_bounded; congruence.
  - intros ks a'.
    assert (I : forall ks h,
               use_integrator (self h) = false ->
               accum_errs (self h) = PyNum 0 ->
               accum_errs (self (run ks h)) = PyNum 0).
    { clear ks. induction ks as [|k ks IH]; intros h Uh Ah; simpl; [exact Ah|].
      destruct (exec_same_parameters h k) as (_ & _ & _ & _ & U' & _).
      apply IH; [congruence|].
      destruct k; simpl; trivial.
      rewrite process_force_accum, integralError_off; trivial. }
    destruct (run_same_parameters ks (mkHeap c a')) as (_ & _ & _ & _ & U' & _).
    simpl in U'. split.
    + apply I; trivial.
    + intro err. apply integralError_off. congruence.
Qed.

End Constructed.

(** ** Instances of C7, C9 and C3 *)

Lemma windup_cutoff_value_witness :
  let a := mkAgent [[1]] [[0]] 1 (Some 3) None in
  let c := mkController (1/10) 1 5 0 true (Some (0.5 * 3 * 5 / (1/10 * 1)))
                        (PyNum 0) (PyNum 0) in
  __init__ a (1/10) [1; 5; 0] "standard" = Ok c /\
  integrator_windup_cutoff c = Some (0.5 * 3 * 5 / (1/10 * 1)) /\
  forall ks a',
    integrator_windup_cutoff (self (run ks (mkHeap c a'))) = integrator_windup_cutoff c.
Proof.
  intros a c.
  assert (H : __init__ a (1/10) [1; 5; 0] "standard" = Ok c).
  { rewrite init_standard. unfold finish_init. decide_reals. reflexivity. }
  split; [exact H | exact (windup_cutoff_value a (1/10) [1; 5; 0] "standard" c H eq_refl)].
Defined.

Lemma reset_contract_witness :
  let a := mkAgent [[1]] [[0]] 1 (Some 3) None in
  let c := mkController (1/10) 1 5 0 true (Some (0.5 * 3 * 5 / (1/10 * 1)))
                        (PyNum 0) (PyNum 0) in
  __init__ a (1/10) [1; 5; 0] "standard" = Ok c /\
  self (snd (reset (run [ProcessForce; ProcessForce] (mkHeap c a)))) = c.
Proof.
  intros a c.
  assert (H : __init__ a (1/10) [1; 5; 0] "standard" = Ok c).
  { rewrite init_standard. unfold finish_init. decide_reals. reflexivity. }
  split; [exact H|].
  apply (proj2 (reset_contract a (1/10) [1; 5; 0] "standard" c H)
               [ProcessForce; ProcessForce] a).
Defined.

(** With a negative integral time the cutoff is negative, here -50, and the
    clamp leaves -50 in [accum_errs]: its magnitude, 50, exceeds the cutoff,
    as the magnitude of any other stored number would. *)
Lemma windup_bound_negative_cutoff :
  let a := mkAgent [[1]] [[0]] 1 None None in
  exists c, __init__ a (1/10) [1; -5; 0] "standard" = Ok c /\
            use_integrator c = true /\
            integrator_windup_cutoff c = Some (-50) /\
            accum_errs (self (snd (integralError [[1]] (mkHeap c a)))) = Tensor [[-50]] /\
            ~ bounded (-50) (accum_errs (self (snd (integralError [[1]] (mkHeap c a))))) /\
            forall x, ~ bounded (-50) (Tensor [[x]]).
Proof.
  intro a. rewrite init_standard. unfold finish_init. decide_reals.
  eexists. split; [reflexivity|]. split; [reflexivity|].
  assert (W : 0.5 * force_limit a * -5 / (1 / 10 * 1) = -50).
  { unfold force_limit; simpl. lra. }
  rewrite W. split; [reflexivity|].
  assert (E : accum_errs
                (self (snd (integralError [[1]]
                   (mkHeap (mkController (1 / 10) 1 (-5) 0 true (Some (-50)) (PyNum 0) (PyNum 0)) a))))
              = Tensor [[-50]]).
  { rewrite (integralError_accum _ _ (-50)); [|reflexivity|reflexivity]. simpl.
    do 3 f_equal. unfold clamp, Rmin, Rmax.
    destruct (Rle_dec _ _); destruct (Rle_dec _ _); lra. }
  assert (N : forall x, ~ bounded (-50) (Tensor [[x]])).
  { intros x B. simpl in B. apply Forall_inv in B. apply Forall_inv in B.
    pose proof (Rabs_pos x). lra. }
  split; [exact E|]. rewrite E. split; [apply N | exact N].
Qed.

Lemma windup_bound_witness :
  let a := mkAgent [[1]] [[0]] 1 (Some 3) None in
  let c := mkController (1/10) 1 5 0 true (Some (0.5 * 3 * 5 / (1/10 * 1)))
                        (PyNum 0) (PyNum 0) in
  let c0 := mkController (1/10) 1 0 0 false None (PyNum 0) (PyNum 0) in
  __init__ a (1/10) [1; 5; 0] "standard" = Ok c /\
  __init__ a (1/10) [1; 0; 0] "standard" = Ok c0 /\
  (exists w, integrator_windup_cutoff c = Some w /\
             (0 <= w ->
              forall ks a',
                bounded w (accum_errs (self (run ks (mkHeap c a')))) /\
                forall err,
                  bounded w (accum_errs
                               (self (snd (integralError err (run ks (mkHeap c a')))))))) /\
  0 <= 0.5 * 3 * 5 / (1/10 * 1) /\
  (forall ks a', accum_errs (self (run ks (mkHeap c0 a'))) = PyNum 0 /\
     forall err,
       integralError err (run ks (mkHeap c0 a')) = (Ok (PyNum 0), run ks (mkHeap c0 a'))).
Proof.
  intros a c c0.
  assert (H : __init__ a (1/10) [1; 5; 0] "standard" = Ok c).
  { rewrite init_standard. unfold finish_init. decide_reals. reflexivity. }
  assert (H0 : __init__ a (1/10) [1; 0; 0] "standard" = Ok c0).
  { rewrite init_standard. unfold finish_init. decide_reals. reflexivity. }
  split; [exact H|]. split; [exact H0|]. split; [|split].
  - exact (proj1 (windup_bound a (1/10) [1; 5; 0] "standard" c H) eq_refl).
  - lra.
  - exact (proj2 (windup_bound a (1/10) [1; 0; 0] "standard" c0 H0) eq_refl).
Defined.

(** ** C10: batch entries *)

Lemma nth_error_zip_with {A B C : Type} (f : A -> B -> C) l1 l2 i :
  nth_error (zip_with f l1 l2) i =
  match nth_error l1 i, nth_error l2 i with
  | Some a, Some b => Some (f a b)
  | _, _ => None
  end.
Proof.
  revert l1 l2; induction i as [|i IH]; intros [|a l1] [|b l2]; simpl; trivial.
  now destruct (nth_error l1 i).
Qed.

Lemma entry_map f i t : entry i (map f t) = map f (entry i t).
Proof.
  unfold entry. rewrite nth_error_map. now destruct (nth_error t i).
Qed.

Lemma entry_t_map f i t : entry i (t_map f t) = t_map f (entry i t).
Proof. apply entry_map. Qed.

Lemma singleton_zip_with {A B C : Type} (f : A -> B -> C) l1 l2 i :
  match nth_error (zip_with f l1 l2) i with Some c => [c] | None => [] end =
  zip_with f (match nth_error l1 i with Some a => [a] | None => [] end)
             (match nth_error l2 i with Some b => [b] | None => [] end).
Proof.
  rewrite nth_error_zip_with.
  destruct (nth_error l1 i), (nth_error l2 i); reflexivity.
Qed.

Lemma entry_t_zip f i t1 t2 : entry i (t_zip f t1 t2) = t_zip f (entry i t1) (entry i t2).
Proof. apply singleton_zip_with. Qed.

Lemma entry_t_op_v f i t v :
  entry i (t_op_v f t v) = t_op_v f (entry i t) (entry_value i v).
Proof. destruct v; simpl; [apply entry_t_map | apply entry_t_zip]. Qed.

Lemma entry_v_op_t f i v t :
  entry i (v_op_t f v t) = v_op_t f (entry_value i v) (entry i t).
Proof. destruct v; simpl; [apply entry_t_map | apply entry_t_zip]. Qed.

Lemma entry_clamp_tensor i t w : entry i (clamp_tensor t w) = clamp_tensor (entry i t) w.
Proof. apply entry_t_map. Qed.

Lemma entry_range_limit i r u : entry i (range_limit r u) = range_limit r (entry i u).
Proof. destruct r; simpl; [apply entry_t_map | reflexivity]. Qed.

Lemma entry_norm_limit i m u : entry i (norm_limit m u) = norm_limit m (entry i u).
Proof. destruct m; simpl; [apply entry_map | reflexivity]. Qed.

Create Rewrite HintDb entry.
#[local] Hint Rewrite entry_t_map entry_t_zip entry_t_op_v entry_v_op_t
  entry_clamp_tensor entry_range_limit entry_norm_limit : entry.

Lemma integralError_entry i err h :
  integralError (entry i err) (entry_heap i h) =
  (entry_result i (fst (integralError err h)), entry_heap i (snd (integralError err h))).
Proof.
  unfold integralError, get_integrator_windup_cutoff, bind, get_self, set_self, raise, lift, ret.
  simpl. destruct (use_integrator (self h)); simpl; [|reflexivity].
  destruct (integrator_windup_cutoff (self h)) as [w|]; simpl.
  - destruct (py_div 1 (integralTs (self h))); simpl; unfold entry_heap, entry_controller; simpl;
      autorewrite with entry; reflexivity.
  - unfold entry_heap, entry_controller; simpl.
    autorewrite with entry; reflexivity.
Qed.

Lemma process_force_entry i h :
  process_force (entry_heap i h) =
  (fst (process_force h), entry_heap i (snd (process_force h))).
Proof.
  rewrite !process_force_eq. simpl.
  rewrite <- entry_t_zip, integralError_entry.
  destruct (integralError _ h) as [[v|e] h1]; simpl; [|reflexivity].
  f_equal.
  unfold entry_heap, entry_agent, entry_controller, with_action_u. simpl.
  autorewrite with entry. reflexivity.
Qed.

Lemma tick_entry i inp h :
  tick (entry_input i inp) (entry_heap i h) = entry_heap i (tick inp h).
Proof.
  unfold tick.
  change (mkHeap (self (entry_heap i h)) (set_inputs (entry_input i inp) (agent (entry_heap i h))))
    with (entry_heap i (mkHeap (self h) (set_inputs inp (agent h)))).
  now rewrite process_force_entry.
Qed.

Lemma forces_entry i inps h :
  forces (map (entry_input i) inps) (entry_heap i h) = map (entry i) (forces inps h).
Proof.
  revert h; induction inps as [|inp inps IH]; intro h; simpl; trivial.
  rewrite tick_entry, IH. reflexivity.
Qed.

Lemma ticks_entry i inps h :
  ticks (map (entry_input i) inps) (entry_heap i h) = entry_heap i (ticks inps h).
Proof.
  revert h; induction inps as [|inp inps IH]; intro h; simpl; trivial.
  now rewrite tick_entry, IH.
Qed.

(** C10: entry [i] of the forces a batched controller writes is what a
    single-entry controller writes when it is run alone on entry [i] of the
    inputs, and so are its slots of [accum_errs] and [prev_err]; a freshly
    constructed or reset controller is its own single-entry controller; hence
    two batched runs whose inputs agree on entry [i] agree on entry [i] of
    every force and of the final state, whatever the other entries hold. *)
Theorem batch_independence (c : VelocityController) (a : Agent) (i : nat)
        (inps : list (tensor * tensor)) :
  forces (map (entry_input i) inps) (mkHeap (entry_controller i c) (entry_agent i a))
  = map (entry i) (forces inps (mkHeap c a)) /\
  self (ticks (map (entry_input i) inps) (mkHeap (entry_controller i c) (entry_agent i a)))
  = entry_controller i (self (ticks inps (mkHeap c a))) /\
  entry_controller i (reset_self c) = reset_self c /\
  (forall inps',
      map (entry_input i) inps' = map (entry_input i) inps ->
      map (entry i) (forces inps' (mkHeap c a)) = map (entry i) (forces inps (mkHeap c a)) /\
      entry_controller i (self (ticks inps' (mkHeap c a)))
      = entry_controller i (self (ticks inps (mkHeap c a)))).
Proof.
  change (mkHeap (entry_controller i c) (entry_agent i a)) with (entry_heap i (mkHeap c a)).
  split; [apply forces_entry|]. split; [now rewrite ticks_entry|].
  split; [reflexivity|].
  intros inps' E. split.
  - now rewrite <- !forces_entry, E.
  - change (self (entry_heap i (ticks inps' (mkHeap c a)))
            = self (entry_heap i (ticks inps (mkHeap c a)))).
    now rewrite <- !ticks_entry, E.
Qed.

(** Two batched runs that differ in entry 1 only. *)
Lemma batch_independence_witness :
  let c := mkController (1/10) 1 5 0 true (Some 75) (PyNum 0) (PyNum 0) in
  let a := mkAgent [[0]; [0]] [[0]; [0]] 1 (Some 3) None in
  let inps := [([[1]; [2]], [[0]; [0]]); ([[1]; [4]], [[1]; [0]])] in
  let inps' := [([[1]; [7]], [[0]; [3]]); ([[1]; [8]], [[1]; [9]])] in
  map (entry_input 0) inps' = map (entry_input 0) inps /\
  map (entry 0) (forces inps' (mkHeap c a)) = map (entry 0) (forces inps (mkHeap c a)) /\
  entry_controller 0 (self (ticks inps' (mkHeap c a)))
  = entry_controller 0 (self (ticks inps (mkHeap c a))).
Proof.
  intros c a inps inps'.
  assert (E : map (entry_input 0) inps' = map (entry_input 0) inps) by reflexivity.
  split; [exact E|].
  exact (proj2 (proj2 (proj2 (batch_independence c a 0 inps))) inps' E).
Defined.

(** ** The scenario of the specification *)

(** [dt = 0.1], standard form [[1, 5, 0]], mass 1, no force limits, desired
    velocity 1 and current velocity 0: the first tick accumulates 0.1 and
    writes the force 1.02. *)
Example scenario_first_tick :
  let a := mkAgent [[1]] [[0]] 1 None None in
  exists c, __init__ a (1/10) [1; 5; 0] "standard" = Ok c /\
            integrator_windup_cutoff c = Some 50 /\
            let h := snd (process_force (mkHeap c a)) in
            action_u (agent h) = [[1.02]] /\
            accum_errs (self h) = Tensor [[0.1]] /\
            prev_err (self h) = Tensor [[1]].
Proof.
  intro a. rewrite init_standard. unfold finish_init. decide_reals.
  assert (W : 0.5 * force_limit a * 5 / (1 / 10 * 1) = 50).
  { unfold force_limit; simpl. lra. }
  rewrite W. eexists. split; [reflexivity|]. split; [reflexivity|].
  unfold process_force, integralError, rateError, get_integrator_windup_cutoff, bind,
    get_self, get_agent, set_self, set_agent, raise, lift, ret, py_div. simpl.
  decide_reals. simpl.
  assert (C : clamp (- (50)) 50 (0 + 1 / 10 * (1 - 0)) = 0.1) by decide_clamps.
  rewrite C. repeat split.
  - replace (1 * (1 - 0 + 1 / 5 * 0.1 + 0 * (1 - 0 - 0) / (1 / 10)) * 1) with 1.02 by lra.
    reflexivity.
  - unfold t_zip. simpl. replace (1 - 0) with 1 by lra. reflexivity.
Qed.

(** ** The two force limits do not commute *)

Lemma vector_norm_3_4 : vector_norm [3; 4] = 5.
Proof.
  unfold vector_norm, sum_sq; simpl.
  replace (3 * 3 + (4 * 4 + 0)) with (5 * 5) by lra.
  apply sqrt_square. lra.
Qed.

(** A force that exceeds both limits: norm first and range second gives
    [[1.5, 1.6]], the other order would give [[1.6, 1.6]]. *)
Example limits_order_matters :
  let u := [[3; 4]] in
  range_limit (Some (8/5)) (norm_limit (Some (5/2)) u) = [[3/2; 8/5]] /\
  norm_limit (Some (5/2)) (range_limit (Some (8/5)) u) = [[8/5; 8/5]].
Proof.
  simpl. split.
  - unfold clamp_row_with_norm. rewrite vector_norm_3_4.
    destruct (Rlt_dec (5 / 2) 5); [|lra]. simpl.
    do 2 f_equal; [|f_equal]; decide_clamps.
  - assert (C3 : clamp (- (8 / 5)) (8 / 5) 3 = 8 / 5) by decide_clamps.
    assert (C4 : clamp (- (8 / 5)) (8 / 5) 4 = 8 / 5) by decide_clamps.
    rewrite C3, C4. unfold clamp_row_with_norm.
    destruct (Rlt_dec (5 / 2) (vector_norm [8 / 5; 8 / 5])) as [L|L]; [|reflexivity].
    exfalso. unfold vector_norm, sum_sq in L; simpl in L.
    assert (S : sqrt (8 / 5 * (8 / 5) + (8 / 5 * (8 / 5) + 0)) <= sqrt (5 / 2 * (5 / 2))).
    { apply sqrt_le_1_alt. lra. }
    rewrite sqrt_square in S; lra.
Qed.

(** ** The limits, element by element *)

Lemma clamp_in_range (lo hi x : R) : lo <= hi -> lo <= clamp lo hi x <= hi.
Proof. intro H. decide_clamps. Qed.

Lemma sum_sq_nonneg (r : row) : 0 <= sum_sq r.
Proof.
  induction r as [|x r IH]; simpl; [lra|].
  pose proof (Rle_0_sqr x) as S. unfold Rsqr in S. lra.
Qed.

Lemma sum_sq_scale (k : R) (r : row) : sum_sq (map (fun x => x * k) r) = k * k * sum_sq r.
Proof.
  induction r as [|x r IH]; simpl; [ring|]. rewrite IH. ring.
Qed.

(** The norm limit caps the norm of every row and keeps its direction: a row
    over the cap is multiplied by the positive factor [max_norm / norm]. *)
Lemma clamp_row_with_norm_capped (m : R) (r : row) :
  0 <= m -> vector_norm (clamp_row_with_norm m r) <= m.
Proof.
  intro M. unfold clamp_row_with_norm.
  destruct (Rlt_dec m (vector_norm r)) as [L|L]; [|lra].
  assert (N : 0 < vector_norm r) by lra.
  unfold vector_norm at 1.
  rewrite (map_ext _ (fun x => x * (m / vector_norm r))).
  2:{ intro x. field. lra. }
  rewrite sum_sq_scale.
  assert (Q : sum_sq r = vector_norm r * vector_norm r).
  { unfold vector_norm. symmetry. apply sqrt_sqrt. apply sum_sq_nonneg. }
  rewrite Q.
  replace (m / vector_norm r * (m / vector_norm r) * (vector_norm r * vector_norm r))
    with (m * m) by (field; lra).
  rewrite sqrt_square; lra.
Qed.

(** * Further properties of the class *)

(** ** The constructor: which calls raise *)

(** X1: on a three-element parameter list the standard form returns a
    controller exactly when [Ti = 0] or [dt * kP <> 0], and the parallel form
    exactly when [kP <> 0] and ([kI = 0] or [dt <> 0]); every other call of a
    valid form raises [ZeroDivisionError].  So the standard form with
    [Ti = 0] constructs even with [kP = 0] and [dt = 0]. *)
Theorem init_zero_division (a : Agent) (d kP x1 x2 : R) :
  ((exists c, __init__ a d [kP; x1; x2] "standard" = Ok c) <-> x1 = 0 \/ d * kP <> 0) /\
  (__init__ a d [kP; x1; x2] "standard" = Raise ZeroDivisionError <->
   x1 <> 0 /\ d * kP = 0) /\
  ((exists c, __init__ a d [kP; x1; x2] "parallel" = Ok c) <->
   kP <> 0 /\ (x1 = 0 \/ d <> 0)) /\
  (__init__ a d [kP; x1; x2] "parallel" = Raise ZeroDivisionError <->
   kP = 0 \/ (x1 <> 0 /\ d = 0)).
Proof.
  rewrite init_standard, init_parallel. unfold finish_init.
  split; [|split; [|split]].
  - destruct (Req_dec_T x1 0) as [Z|Z].
    + split; [auto | eexists; reflexivity].
    + destruct (Req_dec_T (d * kP) 0) as [Z'|Z'].
      * split; [intros (c & H); discriminate | intros [H|H]; contradiction].
      * split; [auto | eexists; reflexivity].
  - destruct (Req_dec_T x1 0) as [Z|Z].
    + split; [discriminate | tauto].
    + destruct (Req_dec_T (d * kP) 0) as [Z'|Z'].
      * tauto.
      * split; [discriminate | tauto].
  - destruct (Req_dec_T kP 0) as [P|P].
    + split; [intros (c & H); discriminate | tauto].
    + destruct (Req_dec_T x1 0) as [I|I].
      * destruct (Req_dec_T 0 0); [|contradiction].
        split; [auto | eexists; reflexivity].
      * destruct (Req_dec_T (kP / x1) 0) as [Z|Z].
        { exfalso. now apply (div_neq_0 kP x1). }
        destruct (Req_dec_T (d * kP) 0) as [Z'|Z'].
        -- split; [intros (c & H); discriminate|].
           intros (_ & [H|H]); [contradiction|].
           apply Rmult_integral in Z'. tauto.
        -- split; [|eexists; reflexivity].
           intros _. split; [assumption|]. right. intro D. apply Z'. rewrite D. ring.
  - destruct (Req_dec_T kP 0) as [P|P].
    + tauto.
    + destruct (Req_dec_T x1 0) as [I|I].
      * destruct (Req_dec_T 0 0); [|contradiction].
        split; [discriminate | tauto].
      * destruct (Req_dec_T (kP / x1) 0) as [Z|Z].
        { exfalso. now apply (div_neq_0 kP x1). }
        destruct (Req_dec_T (d * kP) 0) as [Z'|Z'].
        -- split; [|reflexivity]. intros _. right. split; [assumption|].
           apply Rmult_integral in Z'. tauto.
        -- split; [discriminate|]. intros [H|(_ & H)]; [contradiction|].
           exfalso. apply Z'. rewrite H. ring.
Qed.

Lemma init_zero_division_witness :
  let a := mkAgent [[1]] [[0]] 1 None None in
  (exists c, __init__ a 0 [0; 0; 7] "standard" = Ok c) /\
  __init__ a 0 [1; 5; 0] "standard" = Raise ZeroDivisionError /\
  (exists c, __init__ a 0 [1; 0; 7] "parallel" = Ok c) /\
  __init__ a 0 [1; 5; 0] "parallel" = Raise ZeroDivisionError.
Proof.
  intro a. split; [|split; [|split]].
  - apply (init_zero_division a 0 0 0 7). left. reflexivity.
  - apply (init_zero_division a 0 1 5 0). split; lra.
  - apply (init_zero_division a 0 1 0 7). split; [lra | left; reflexivity].
  - apply (init_zero_division a 0 1 5 0). right. split; [lra | reflexivity].
Defined.

(** ** The constructor: the length of the parameter list *)

(** X2: the constructor reads [ctrl_params[0]] before it looks at the form
    and the other two elements afterwards: an empty list raises [IndexError]
    whatever the form, a list of one or two elements raises [IndexError] for
    the two valid forms and the form exception for any other form, and the
    elements after the third are never read. *)
Theorem init_params_length (a : Agent) (d : R) (ps : list R) (form : string) :
  (ps = [] -> __init__ a d ps form = Raise IndexError) /\
  ((List.length ps < 3)%nat ->
   form = "standard"%string \/ form = "parallel"%string ->
   __init__ a d ps form = Raise IndexError) /\
  (ps <> [] ->
   form <> "standard"%string -> form <> "parallel"%string ->
   __init__ a d ps form = Raise InvalidConfiguration) /\
  (forall kP x1 x2 rest,
      ps = kP :: x1 :: x2 :: rest ->
      __init__ a d ps form = __init__ a d [kP; x1; x2] form).
Proof.
  split; [|split; [|split]].
  - intros ->. reflexivity.
  - intros L V.
    destruct ps as [|kP [|x1 [|x2 rest]]]; simpl in L.
    + reflexivity.
    + destruct V as [-> | ->]; reflexivity.
    + destruct V as [-> | ->]; unfold __init__, py_div; simpl; [reflexivity|].
      destruct (Req_dec_T x1 0); simpl; [reflexivity|].
      destruct (Req_dec_T x1 0); [contradiction | reflexivity].
    + exfalso. repeat apply PeanoNat.lt_S_n in L. inversion L.
  - intros N S P. apply String.eqb_neq in S, P.
    destruct ps as [|kP ps]; [contradiction|].
    unfold __init__. simpl. rewrite S, P. reflexivity.
  - intros kP x1 x2 rest ->. reflexivity.
Qed.

Lemma init_params_length_witness :
  let a := mkAgent [[1]] [[0]] 1 None None in
  __init__ a 1 [] "serial" = Raise IndexError /\
  __init__ a 1 [1; 5] "parallel" = Raise IndexError /\
  __init__ a 1 [1; 5] "serial" = Raise InvalidConfiguration /\
  __init__ a 1 [1; 5; 0; 9] "standard" = __init__ a 1 [1; 5; 0] "standard".
Proof.
  intro a. split; [|split; [|split]].
  - exact (proj1 (init_params_length a 1 [] "serial") eq_refl).
  - apply (proj1 (proj2 (init_params_length a 1 [1; 5] "parallel")));
      [simpl; repeat constructor | now right].
  - apply (proj1 (proj2 (proj2 (init_params_length a 1 [1; 5] "serial")))); discriminate.
  - exact (proj2 (proj2 (proj2 (init_params_length a 1 [1; 5; 0; 9] "standard")))
             1 5 0 [9] eq_refl).
Defined.

(** ** The class invariant *)

Lemma init_integrator_iff a d ps form c :
  __init__ a d ps form = Ok c ->
  (use_integrator c = true <-> integralTs c <> 0) /\
  (use_integrator c = true <-> exists w, integrator_windup_cutoff c = Some w) /\
  (integralTs c <> 0 -> d * ctrl_gain c <> 0).
Proof.
  intro H. apply init_ok in H.
  apply finish_init_ok in H as (_ & _ & _ & _ & _ & _ & Z & NZ).
  destruct (Req_dec_T (integralTs c) 0) as [T|T].
  - destruct (Z T) as (U & W). rewrite U, W. repeat split; try discriminate; try tauto.
    intros (w & E). discriminate.
  - destruct (NZ T) as (D & U & W). rewrite U, W. repeat split; eauto.
Qed.

(** X3: on every heap reached from a constructed controller by calls of
    [reset] and [process_force] and writes of the agent, the integrator is in
    use exactly when [integralTs] is not zero and exactly when the windup
    cutoff has been assigned, and [dt] is still the constructor's [dt]. *)
Theorem constructed_invariant (a : Agent) (d : R) (ps : list R) (form : string)
        (c : VelocityController) :
  __init__ a d ps form = Ok c ->
  forall ks a',
    let c' := self (run ks (mkHeap c a')) in
    (use_integrator c' = true <-> integralTs c' <> 0) /\
    (use_integrator c' = true <-> exists w, integrator_windup_cutoff c' = Some w) /\
    (integralTs c' <> 0 -> dt c' * ctrl_gain c' <> 0) /\
    dt c' = d.
Proof.
  intros H ks a' c'.
  destruct (run_same_parameters ks (mkHeap c a')) as (D & G & T & _ & U & W).
  fold c' in D, G, T, U, W. simpl in D, G, T, U, W.
  destruct (init_integrator_iff _ _ _ _ _ H) as (I1 & I2 & I3).
  pose proof (init_ok _ _ _ _ _ H) as F. apply finish_init_ok in F as (Dc & _).
  rewrite U, T, W, D, G, Dc. auto.
Qed.

Lemma constructed_invariant_witness :
  let a := mkAgent [[1]] [[0]] 1 (Some 3) None in
  let c := mkController (1/10) 1 5 0 true (Some (0.5 * 3 * 5 / (1/10 * 1)))
                        (PyNum 0) (PyNum 0) in
  __init__ a (1/10) [1; 5; 0] "standard" = Ok c /\
  let c' := self (run [ProcessForce; Reset; ProcessForce] (mkHeap c a)) in
  (use_integrator c' = true <-> integralTs c' <> 0) /\
  (use_integrator c' = true <-> exists w, integrator_windup_cutoff c' = Some w) /\
  (integralTs c' <> 0 -> dt c' * ctrl_gain c' <> 0) /\
  dt c' = 1/10.
Proof.
  intros a c.
  assert (H : __init__ a (1/10) [1; 5; 0] "standard" = Ok c).
  { rewrite init_standard. unfold finish_init. decide_reals. reflexivity. }
  split; [exact H|].
  exact (constructed_invariant a (1/10) [1; 5; 0] "standard" c H
           [ProcessForce; Reset; ProcessForce] a).
Defined.

(** ** More on elementwise operations *)

Lemma zip_with_map_map {A B C D : Type} (f : B -> C -> D) (g : A -> B) (h : A -> C) l :
  zip_with f (map g l) (map h l) = map (fun x => f (g x) (h x)) l.
Proof. induction l as [|x l IH]; simpl; [reflexivity | now rewrite IH]. Qed.

Lemma t_zip_t_map_t_map f g h e :
  t_zip f (t_map g e) (t_map h e) = t_map (fun x => f (g x) (h x)) e.
Proof.
  unfold t_zip, t_map. rewrite zip_with_map_map. apply map_ext.
  intro r. apply zip_with_map_map.
Qed.

Lemma t_map_id t : t_map (fun x => x) t = t.
Proof.
  unfold t_map. rewrite <- (map_id t) at 2. apply map_ext. intro r. apply map_id.
Qed.

Lemma t_zip_diag f t : t_zip f t t = t_map (fun x => f x x) t.
Proof.
  rewrite <- (t_map_id t) at 1 2. apply t_zip_t_map_t_map.
Qed.

Lemma t_zip_t_map_l f g t e :
  t_zip f (t_map g e) t = t_zip (fun x y => f (g x) y) e t.
Proof.
  unfold t_zip, t_map. revert t; induction e as [|r e IH]; intros [|r' t]; simpl; trivial.
  rewrite IH. f_equal.
  revert r'; induction r as [|x r IHr]; intros [|y r']; simpl; trivial. now rewrite IHr.
Qed.

Lemma t_zip_t_map_r f g t e :
  t_zip f t (t_map g e) = t_zip (fun x y => f x (g y)) t e.
Proof.
  unfold t_zip, t_map. revert e; induction t as [|r' t IH]; intros [|r e]; simpl; trivial.
  rewrite IH. f_equal.
  revert r; induction r' as [|x r' IHr]; intros [|y r]; simpl; trivial. now rewrite IHr.
Qed.

(** What [integralError] returns and stores when the integrator is in use. *)
Lemma integralError_value err h w :
  use_integrator (self h) = true ->
  integrator_windup_cutoff (self h) = Some w ->
  integralTs (self h) <> 0 ->
  let acc := clamp_tensor
               (v_op_t Rplus (accum_errs (self h)) (t_map (Rmult (dt (self h))) err)) w in
  integralError err h =
  (Ok (Tensor (t_map (Rmult (1 / integralTs (self h))) acc)),
   mkHeap (with_accum_errs (Tensor acc) (self h)) (agent h)).
Proof.
  intros U W T acc.
  unfold integralError, get_integrator_windup_cutoff, bind, get_self, set_self, raise, lift,
    ret, py_div.
  rewrite U. simpl. rewrite W. simpl.
  destruct (Req_dec_T (integralTs (self h)) 0); [contradiction | reflexivity].
Qed.

(** ** Ticks keep the parameters *)

Lemma tick_same_parameters inp h : same_parameters (self h) (self (tick inp h)).
Proof.
  unfold tick.
  apply (process_force_keeps (mkHeap (self h) (set_inputs inp (agent h)))).
Qed.

(** ** The derivative term on a repeated error *)

(** X8: the first [rateError] call after construction or [reset] returns
    [derivativeTs * err / dt], the whole error being taken as a change; a
    call that follows another call with the same error returns a tensor of
    zeros of the shape of the error, whatever the state was before. *)
Theorem derivative_kick_then_zero (err : tensor) (h : Heap) :
  (prev_err (self h) = PyNum 0 ->
   fst (rateError err h) =
   Ok (t_map (fun x => derivativeTs (self h) * x / dt (self h)) err)) /\
  fst (rateError err (snd (rateError err h))) = Ok (t_map (fun _ => 0) err).
Proof.
  rewrite !rateError_eq. simpl. split.
  - intros ->. simpl. rewrite !t_map_t_map. f_equal.
    apply t_map_ext. intro x. f_equal. f_equal. lra.
  - rewrite t_zip_diag, !t_map_t_map. f_equal.
    apply t_map_ext. intro x. unfold Rdiv, Rminus. ring.
Qed.

Lemma derivative_kick_then_zero_witness :
  let h := mkHeap (mkController (1/10) 1 0 3 false None (PyNum 0) (PyNum 0))
                  (mkAgent [[1]] [[0]] 1 None None) in
  fst (rateError [[2]] h) = Ok (t_map (fun x => 3 * x / (1/10)) [[2]]) /\
  fst (rateError [[2]] (snd (rateError [[2]] h))) = Ok (t_map (fun _ => 0) [[2]]).
Proof.
  intro h. destruct (derivative_kick_then_zero [[2]] h) as (K & Z).
  split; [exact (K eq_refl) | exact Z].
Defined.

(** ** Shapes *)

Lemma shape_t_map f t : shape (t_map f t) = shape t.
Proof.
  unfold shape, t_map. rewrite map_map. apply map_ext. intro r. apply length_map.
Qed.

Lemma length_zip_with_same {A B C : Type} (f : A -> B -> C) l1 l2 :
  List.length l1 = List.length l2 -> List.length (zip_with f l1 l2) = List.length l1.
Proof.
  revert l2; induction l1 as [|a l1 IH]; intros [|b l2]; simpl; trivial; try discriminate.
  intros [= E]. now rewrite IH.
Qed.

Lemma shape_t_zip f t1 t2 : shape t1 = shape t2 -> shape (t_zip f t1 t2) = shape t1.
Proof.
  unfold shape, t_zip. revert t2; induction t1 as [|r1 t1 IH]; intros [|r2 t2]; simpl;
    trivial; try discriminate.
  intros [= E1 E2]. rewrite IH; trivial. now rewrite length_zip_with_same.
Qed.

(** A binary operation that ignores its second argument, on two tensors of
    one shape. *)
Lemma zip_with_ignore_r {A B C : Type} (f : A -> B -> C) (g : A -> C) l1 l2 :
  List.length l1 = List.length l2 -> (forall x y, f x y = g x) ->
  zip_with f l1 l2 = map g l1.
Proof.
  intros L E. revert l2 L; induction l1 as [|a l1 IH]; intros [|b l2]; simpl; trivial;
    try discriminate.
  intros [= L]. now rewrite E, IH.
Qed.

Lemma t_zip_ignore_r f g t1 t2 :
  shape t1 = shape t2 -> (forall x y, f x y = g x) -> t_zip f t1 t2 = t_map g t1.
Proof.
  intros S E. unfold shape, t_zip, t_map in *.
  revert t2 S; induction t1 as [|r1 t1 IH]; intros [|r2 t2]; simpl; trivial; try discriminate.
  intros [= L S]. rewrite IH; trivial. f_equal. now apply zip_with_ignore_r.
Qed.

Lemma shape_t_op_v f t v s : shape t = s -> fits s v -> shape (t_op_v f t v) = s.
Proof.
  intros S F. destruct v as [x|t']; simpl in *.
  - now rewrite shape_t_map.
  - rewrite shape_t_zip; congruence.
Qed.

Lemma shape_v_op_t f v t s : shape t = s -> fits s v -> shape (v_op_t f v t) = s.
Proof.
  intros S F. destruct v as [x|t']; simpl in *.
  - now rewrite shape_t_map.
  - rewrite shape_t_zip; congruence.
Qed.

Lemma length_clamp_row_with_norm m r :
  List.length (clamp_row_with_norm m r) = List.length r.
Proof.
  unfold clamp_row_with_norm. destruct (Rlt_dec m (vector_norm r)); trivial.
  apply length_map.
Qed.

Lemma shape_limits a u : shape (limits a u) = shape u.
Proof.
  unfold limits, range_limit, norm_limit, torch_clamp, clamp_with_norm.
  assert (N : forall m, shape (map (clamp_row_with_norm m) u) = shape u).
  { intro m. unfold shape. rewrite map_map. apply map_ext.
    intro r. apply length_clamp_row_with_norm. }
  destruct (f_range a), (max_f a); rewrite ?shape_t_map, ?N; reflexivity.
Qed.

Lemma t_map_fixed f t : Forall (Forall (fun x => f x = x)) t -> t_map f t = t.
Proof.
  unfold t_map. induction 1 as [|r t Hr _ IH]; simpl; trivial.
  rewrite IH. f_equal. induction Hr as [|x r Hx _ IHr]; simpl; trivial.
  now rewrite Hx, IHr.
Qed.

(** ** One tick, in full *)

(** The heap after [process_force] when the integrator is not in use. *)
Lemma process_force_integrator_off h :
  use_integrator (self h) = false ->
  let err := t_zip Rminus (action_u (agent h)) (state_vel (agent h)) in
  process_force h =
  (Ok tt,
   mkHeap (with_prev_err (Tensor err) (self h))
     (with_action_u
        (limits (agent h)
           (t_map (fun x => x * mass (agent h))
              (t_map (Rmult (ctrl_gain (self h)))
                 (t_zip Rplus (t_op_v Rplus err (PyNum 0))
                    (t_map (fun x => x / dt (self h))
                       (t_map (Rmult (derivativeTs (self h)))
                          (t_op_v Rminus err (prev_err (self h)))))))))
        (agent h))).
Proof.
  intros U err. rewrite process_force_eq. fold err.
  rewrite (integralError_off err h U), rateError_eq. reflexivity.
Qed.

(** The heap after [process_force] when the integrator is in use. *)
Lemma process_force_integrator_on h w :
  use_integrator (self h) = true ->
  integrator_windup_cutoff (self h) = Some w ->
  integralTs (self h) <> 0 ->
  let err := t_zip Rminus (action_u (agent h)) (state_vel (agent h)) in
  let acc := clamp_tensor
               (v_op_t Rplus (accum_errs (self h)) (t_map (Rmult (dt (self h))) err)) w in
  process_force h =
  (Ok tt,
   mkHeap (with_prev_err (Tensor err) (with_accum_errs (Tensor acc) (self h)))
     (with_action_u
        (limits (agent h)
           (t_map (fun x => x * mass (agent h))
              (t_map (Rmult (ctrl_gain (self h)))
                 (t_zip Rplus
                    (t_op_v Rplus err
                       (Tensor (t_map (Rmult (1 / integralTs (self h))) acc)))
                    (t_map (fun x => x / dt (self h))
                       (t_map (Rmult (derivativeTs (self h)))
                          (t_op_v Rminus err (prev_err (self h)))))))))
        (agent h))).
Proof.
  intros U W T err acc. rewrite process_force_eq. fold err.
  rewrite (integralError_value err h w U W T), rateError_eq. reflexivity.
Qed.

(** ** The proportional controller *)

Lemma proportional_tick s inp h :
  use_integrator (self h) = false ->
  derivativeTs (self h) = 0 ->
  fits s (prev_err (self h)) ->
  shape (fst inp) = s -> shape (snd inp) = s ->
  tick inp h =
  mkHeap (with_prev_err (Tensor (t_zip Rminus (fst inp) (snd inp))) (self h))
         (with_action_u
            (limits (agent h) (proportional_force (agent h) (ctrl_gain (self h)) inp))
            (set_inputs inp (agent h))).
Proof.
  intros U Td F S1 S2. unfold tick.
  rewrite process_force_integrator_off; [|exact U]. simpl.
  set (err := t_zip Rminus (fst inp) (snd inp)).
  assert (Se : shape err = s) by (unfold err; rewrite shape_t_zip; congruence).
  change (limits (set_inputs inp (agent h))) with (limits (agent h)).
  do 3 f_equal. unfold proportional_force. fold err.
  rewrite Td, !t_map_t_map, t_zip_t_map_l, t_zip_t_map_r.
  rewrite (t_zip_ignore_r _ (fun x => x)).
  - rewrite t_map_t_map. apply t_map_ext. intro x. ring.
  - rewrite Se. symmetry. now apply shape_t_op_v.
  - intros x y. unfold Rdiv. ring.
Qed.

(** X9: a controller with neither integral nor derivative action (the
    default parameters [[1, 0, 0]] give one) is memoryless: on inputs of one
    shape every force is the limited [mass * kP * (desired - current)] of its
    own tick, whatever the earlier ticks were. *)
Theorem proportional_memoryless (s : list nat) (inps : list (tensor * tensor)) (h : Heap) :
  use_integrator (self h) = false ->
  derivativeTs (self h) = 0 ->
  fits s (prev_err (self h)) ->
  Forall (fun inp => shape (fst inp) = s /\ shape (snd inp) = s) inps ->
  forces inps h =
  map (fun inp => limits (agent h) (proportional_force (agent h) (ctrl_gain (self h)) inp))
      inps.
Proof.
  intros U Td F All. revert h U Td F.
  induction All as [|inp inps (S1 & S2) _ IH]; intros h U Td F; simpl; [reflexivity|].
  rewrite (proportional_tick s inp h U Td F S1 S2). simpl. f_equal.
  rewrite IH; simpl; trivial.
  unfold shape. rewrite <- S1. apply shape_t_zip. congruence.
Qed.

Lemma proportional_memoryless_witness :
  let a := mkAgent [[0]] [[0]] 2 None (Some 1) in
  let h := mkHeap (mkController (1/10) 1 0 0 false None (PyNum 0) (PyNum 0)) a in
  let inps := [([[1]], [[0]]); ([[5]], [[2]]); ([[1]], [[0]])] in
  forces inps h = map (fun inp => limits a (proportional_force a 1 inp)) inps.
Proof.
  intros a h inps.
  apply (proportional_memoryless [1%nat] inps h); try reflexivity.
  repeat constructor.
Defined.

(** ** The force stays within the limits *)

Lemma clamp_negative_range (r x : R) : r < 0 -> clamp (- r) r x = r.
Proof. intro H. decide_clamps. Qed.

(** X10: when the agent has an [f_range] that is not negative, every
    component of the force that [process_force] writes lies in
    [[-f_range, f_range]]; when [f_range] is negative, [torch.clamp] gets a
    lower bound above its upper bound and every component of the force is
    [f_range] itself, whatever the error. *)
Theorem force_within_range (h : Heap) (r : R) :
  well_formed (self h) ->
  f_range (agent h) = Some r ->
  (0 <= r ->
   Forall (Forall (fun x => - r <= x <= r)) (action_u (agent (snd (process_force h))))) /\
  (r < 0 ->
   Forall (Forall (fun x => x = r)) (action_u (agent (snd (process_force h))))).
Proof.
  intros WF Fr.
  destruct (process_force_on_well_formed h WF) as (i & h1 & e & h2 & _ & _ & E).
  rewrite E, Fr. simpl. split; intro Hr; apply Forall_t_map; intro x.
  - apply clamp_in_range. lra.
  - now apply clamp_negative_range.
Qed.

Lemma force_within_range_witness :
  let h := mkHeap (mkController 1 10 0 0 false None (PyNum 0) (PyNum 0))
                  (mkAgent [[1; -1]] [[0; 0]] 1 None (Some 2)) in
  well_formed (self h) /\ 0 <= 2 /\
  Forall (Forall (fun x => - (2) <= x <= 2)) (action_u (agent (snd (process_force h)))).
Proof.
  intro h.
  assert (WF : well_formed (self h)) by reflexivity.
  assert (P : 0 <= 2) by lra.
  split; [exact WF|]. split; [exact P|].
  exact (proj1 (force_within_range h 2 WF eq_refl) P).
Defined.

Lemma clamp_sq_le (r x : R) : 0 <= r -> clamp (- r) r x * clamp (- r) r x <= x * x.
Proof. intro H. decide_clamps; nra. Qed.

Lemma sum_sq_clamp_le (r : R) (v : row) :
  0 <= r -> sum_sq (map (clamp (- r) r) v) <= sum_sq v.
Proof.
  intro H. induction v as [|x v IH]; simpl; [lra|].
  pose proof (clamp_sq_le r x H). lra.
Qed.

(** X11: when the agent has a [max_f] that is not negative, and an [f_range]
    that is absent or not negative, every row of the force that
    [process_force] writes has a Euclidean norm of at most [max_f]: the
    per-component clamp that follows the norm clamp does not undo it.  (The
    norm clamp is [clamp_with_norm] as modelled above.) *)
Theorem force_norm_bound (h : Heap) (m : R) :
  well_formed (self h) ->
  max_f (agent h) = Some m ->
  0 <= m ->
  (forall r, f_range (agent h) = Some r -> 0 <= r) ->
  Forall (fun v => vector_norm v <= m) (action_u (agent (snd (process_force h)))).
Proof.
  intros WF Mf Hm Hr.
  destruct (process_force_on_well_formed h WF) as (i & h1 & e & h2 & _ & _ & E).
  rewrite E, Mf. simpl.
  set (u := t_map _ _). clearbody u.
  assert (N : Forall (fun v => vector_norm v <= m) (clamp_with_norm u m)).
  { unfold clamp_with_norm. apply Forall_forall. intros v Hv.
    apply in_map_iff in Hv as (v' & <- & _). now apply clamp_row_with_norm_capped. }
  destruct (f_range (agent h)) as [r|]; simpl; [|exact N].
  specialize (Hr r eq_refl).
  unfold torch_clamp, t_map. apply Forall_forall. intros v Hv.
  apply in_map_iff in Hv as (v' & <- & Hv').
  rewrite Forall_forall in N. specialize (N v' Hv').
  apply Rle_trans with (vector_norm v'); [|exact N].
  unfold vector_norm. apply sqrt_le_1_alt. now apply sum_sq_clamp_le.
Qed.

Lemma force_norm_bound_witness :
  let h := mkHeap (mkController 1 10 0 0 false None (PyNum 0) (PyNum 0))
                  (mkAgent [[3; 4]] [[0; 0]] 1 (Some 5) (Some 2)) in
  well_formed (self h) /\ 0 <= 5 /\
  Forall (fun v => vector_norm v <= 5) (action_u (agent (snd (process_force h)))).
Proof.
  intro h.
  assert (WF : well_formed (self h)) by reflexivity.
  assert (P : 0 <= 5) by lra.
  split; [exact WF|]. split; [exact P|].
  apply (force_norm_bound h 5 WF eq_refl P).
  intros r [= <-]. lra.
Defined.

(** ** A tick without error *)

Lemma clamp_fixed (w x : R) : Rabs x <= w -> clamp (- w) w x = x.
Proof.
  unfold Rabs. destruct (Rcase_abs x); intro H; decide_clamps.
Qed.

(** X12: when the desired velocity equals the current velocity, a call of
    [process_force] leaves the accumulated error as it is: with the
    integrator in use, [accum_errs] a tensor within the cutoff and of the
    shape of the velocity, [accum_errs] is the same tensor after the call. *)
Theorem zero_error_keeps_integral (h : Heap) (w : R) (t : tensor) :
  use_integrator (self h) = true ->
  integrator_windup_cutoff (self h) = Some w ->
  accum_errs (self h) = Tensor t ->
  bounded w (Tensor t) ->
  action_u (agent h) = state_vel (agent h) ->
  shape (state_vel (agent h)) = shape t ->
  accum_errs (self (snd (process_force h))) = Tensor t.
Proof.
  intros U W A B E S.
  rewrite process_force_accum, (integralError_accum _ _ w U W), A, E.
  cbn [v_op_t]. f_equal.
  rewrite t_zip_diag, t_map_t_map, t_zip_t_map_r.
  rewrite (t_zip_ignore_r _ (fun x => x)).
  - rewrite t_map_id. unfold clamp_tensor, torch_clamp. apply t_map_fixed.
    simpl in B. eapply Forall_impl; [|exact B].
    intros r Hr. eapply Forall_impl; [|exact Hr].
    intros x Hx. now apply clamp_fixed.
  - now symmetry.
  - intros x y. ring.
Qed.

Lemma zero_error_keeps_integral_witness :
  let h := mkHeap (mkController (1/10) 1 5 0 true (Some 3) (Tensor [[2; -1]]) (PyNum 0))
                  (mkAgent [[7; 8]] [[7; 8]] 1 None None) in
  bounded 3 (Tensor [[2; -1]]) /\
  accum_errs (self (snd (process_force h))) = Tensor [[2; -1]].
Proof.
  intro h.
  assert (B : bounded 3 (Tensor [[2; -1]])).
  { simpl. constructor; [|constructor].
    constructor; [apply Rabs_le; lra|]. constructor; [apply Rabs_le; lra | constructor]. }
  split; [exact B|].
  exact (zero_error_keeps_integral h 3 [[2; -1]] eq_refl eq_refl eq_refl B eq_refl eq_refl).
Defined.

(** ** Shapes along a run *)

Lemma tick_shape s inp h :
  well_formed (self h) ->
  fits s (accum_errs (self h)) ->
  fits s (prev_err (self h)) ->
  shape (fst inp) = s -> shape (snd inp) = s ->
  well_formed (self (tick inp h)) /\
  shape (action_u (agent (tick inp h))) = s /\
  (exists p, prev_err (self (tick inp h)) = Tensor p /\ shape p = s) /\
  fits s (accum_errs (self (tick inp h))) /\
  (use_integrator (self h) = true ->
   exists t, accum_errs (self (tick inp h)) = Tensor t /\ shape t = s).
Proof.
  intros WF FA FP S1 S2.
  set (err := t_zip Rminus (fst inp) (snd inp)).
  assert (Se : shape err = s) by (unfold err; rewrite shape_t_zip; congruence).
  assert (Sd : shape (t_map (fun x => x / dt (self h))
                        (t_map (Rmult (derivativeTs (self h)))
                           (t_op_v Rminus err (prev_err (self h))))) = s).
  { rewrite !shape_t_map. now apply shape_t_op_v. }
  assert (WF' : well_formed (self (tick inp h))).
  { destruct (tick_same_parameters inp h) as (_ & _ & T & _ & U & W).
    unfold well_formed. now rewrite U, W, T. }
  split; [exact WF'|]. clear WF'.
  unfold tick. unfold well_formed in WF.
  destruct (use_integrator (self h)) eqn:U.
  - destruct WF as (T & w & W).
    rewrite (process_force_integrator_on _ w); trivial. simpl. fold err.
    set (acc := clamp_tensor _ w).
    assert (Sa : shape acc = s).
    { unfold acc, clamp_tensor, torch_clamp. rewrite shape_t_map.
      apply shape_v_op_t; trivial. now rewrite shape_t_map. }
    split; [|split; [|split]].
    + rewrite shape_limits, !shape_t_map, shape_t_zip.
      * rewrite shape_t_zip; [exact Se | rewrite shape_t_map; congruence].
      * rewrite Sd. rewrite shape_t_zip; [exact Se | rewrite shape_t_map; congruence].
    + exists err. auto.
    + exact Sa.
    + intros _. exists acc. auto.
  - rewrite process_force_integrator_off; trivial. simpl. fold err.
    split; [|split; [|split]].
    + rewrite shape_limits, !shape_t_map, shape_t_zip.
      * now rewrite shape_t_map.
      * rewrite Sd. now rewrite shape_t_map.
    + exists err. auto.
    + exact FA.
    + discriminate.
Qed.

(** X13: starting from a constructed-like state (stored values that are
    plain numbers or tensors of shape [s]) and ticking on inputs that all
    have shape [s], every force written has shape [s], and after the last
    tick [prev_err] and [accum_errs] still fit that shape; after at least one
    tick [prev_err] is a tensor of shape [s], no longer the number 0.0 the
    constructor stored. *)
Theorem forces_keep_shape (s : list nat) (inps : list (tensor * tensor)) (h : Heap) :
  well_formed (self h) ->
  fits s (accum_errs (self h)) ->
  fits s (prev_err (self h)) ->
  Forall (fun inp => shape (fst inp) = s /\ shape (snd inp) = s) inps ->
  Forall (fun f => shape f = s) (forces inps h) /\
  fits s (accum_errs (self (ticks inps h))) /\
  fits s (prev_err (self (ticks inps h))) /\
  (inps <> [] -> exists p, prev_err (self (ticks inps h)) = Tensor p /\ shape p = s).
Proof.
  intros WF FA FP All. revert h WF FA FP.
  induction All as [|inp inps (S1 & S2) All IH]; intros h WF FA FP; simpl.
  - repeat split; trivial. intro N. contradiction.
  - destruct (tick_shape s inp h WF FA FP S1 S2) as (WF' & Sf & (p & Ep & Sp) & FA' & _).
    assert (FP' : fits s (prev_err (self (tick inp h)))) by (rewrite Ep; exact Sp).
    destruct (IH (tick inp h) WF' FA' FP') as (F1 & F2 & F3 & F4).
    split; [constructor; trivial|]. split; [exact F2|]. split; [exact F3|].
    intros _. destruct inps as [|inp' inps'].
    + simpl. exists p. auto.
    + apply F4. discriminate.
Qed.

Lemma forces_keep_shape_witness :
  let a := mkAgent [[0; 0]] [[0; 0]] 1 (Some 3) None in
  let h := mkHeap (mkController (1/10) 1 5 2 true (Some 3) (PyNum 0) (PyNum 0)) a in
  let inps := [([[1; 2]], [[0; 0]]); ([[5; 1]], [[2; 2]])] in
  well_formed (self h) /\
  Forall (fun f => shape f = [2%nat]) (forces inps h) /\
  exists p, prev_err (self (ticks inps h)) = Tensor p /\ shape p = [2%nat].
Proof.
  intros a h inps.
  assert (WF : well_formed (self h)).
  { split; [simpl; lra | exists 3; reflexivity]. }
  assert (All : Forall (fun inp => shape (fst inp) = [2%nat] /\ shape (snd inp) = [2%nat])
                       inps).
  { repeat constructor. }
  destruct (forces_keep_shape [2%nat] inps h WF I I All) as (F & _ & _ & P).
  split; [exact WF|]. split; [exact F|]. apply P. discriminate.
Defined.

(** ** C2: the force that is written *)

(** C2: on a controller as the constructor builds them, with the agent's
    desired and current velocity of one shape [s] and stored values that fit
    it, [process_force] returns normally and writes the force
    [mass * kP * (error + integral_term(error) + derivative_term(error))],
    limited first by norm to [max_f] when it is present and then per
    component to [[-f_range, f_range]] when it is present, where
    [error = desired_velocity - current_velocity]; [derivative_term] is
    [derivativeTs * (error - prev_err) / dt] with the [prev_err] of before
    the call; [integral_term] is the number 0 when the integrator is off, and
    otherwise [(1 / integralTs)] times the new accumulated error, which is
    [accum_errs + dt * error] clamped to the cutoff.  These are the values
    the two internal calls return, in that order, and the state they leave. *)
Theorem process_force_written_force (h : Heap) (s : list nat) :
  well_formed (self h) ->
  agent_has_shape s (agent h) ->
  fits s (accum_errs (self h)) ->
  fits s (prev_err (self h)) ->
  let c := self h in
  let a := agent h in
  let err := t_zip Rminus (action_u a) (state_vel a) in
  let d := derivative_term (derivativeTs c) (dt c) err (prev_err c) in
  let force := fun i : value =>
                 range_limit (f_range a)
                   (norm_limit (max_f a)
                      (t_map (fun x => mass a * ctrl_gain c * x)
                         (t_zip Rplus (t_op_v Rplus err i) d))) in
  (use_integrator c = false ->
   integralError err h = (Ok (PyNum 0), h) /\
   rateError err h = (Ok d, mkHeap (with_prev_err (Tensor err) c) a) /\
   process_force h =
     (Ok tt, mkHeap (with_prev_err (Tensor err) c) (with_action_u (force (PyNum 0)) a)) /\
   shape (force (PyNum 0)) = s) /\
  (use_integrator c = true ->
   exists w,
     integrator_windup_cutoff c = Some w /\
     let acc := clamp_tensor (v_op_t Rplus (accum_errs c) (t_map (Rmult (dt c)) err)) w in
     let i := Tensor (t_map (Rmult (1 / integralTs c)) acc) in
     let c1 := with_accum_errs (Tensor acc) c in
     integralError err h = (Ok i, mkHeap c1 a) /\
     rateError err (mkHeap c1 a) = (Ok d, mkHeap (with_prev_err (Tensor err) c1) a) /\
     process_force h =
       (Ok tt, mkHeap (with_prev_err (Tensor err) c1) (with_action_u (force i) a)) /\
     shape (force i) = s).
Proof.
  intros WF (Su & Sv) FA FP c a. subst c a. intros err d force.
  assert (Se : shape err = s) by (unfold err; rewrite shape_t_zip; congruence).
  assert (Ed : t_map (fun x => x / dt (self h))
                 (t_map (Rmult (derivativeTs (self h)))
                    (t_op_v Rminus err (prev_err (self h)))) = d).
  { unfold d, derivative_term. now rewrite t_map_t_map, t_map_t_op_v. }
  assert (Sd : shape d = s).
  { rewrite <- Ed, !shape_t_map. now apply shape_t_op_v. }
  assert (Ef : forall i,
             limits (agent h)
               (t_map (fun x => x * mass (agent h))
                  (t_map (Rmult (ctrl_gain (self h)))
                     (t_zip Rplus (t_op_v Rplus err i) d)))
             = force i).
  { intro i. rewrite t_map_t_map. unfold force, limits. do 2 f_equal.
    apply t_map_ext. intro x. ring. }
  assert (Sf : forall i, fits s i -> shape (force i) = s).
  { intros i Fi. rewrite <- Ef, shape_limits, !shape_t_map, shape_t_zip.
    - now apply shape_t_op_v.
    - rewrite Sd. now apply shape_t_op_v. }
  split; intro U.
  - split; [now apply integralError_off|].
    split; [rewrite rateError_eq, Ed; reflexivity|].
    split; [|apply Sf; exact I].
    rewrite (process_force_integrator_off h U). fold err. now rewrite Ed, Ef.
  - unfold well_formed in WF. rewrite U in WF. destruct WF as (T & w & W).
    exists w. split; [exact W|]. intros acc i c1.
    split; [apply (integralError_value err h w U W T)|].
    split; [rewrite rateError_eq; simpl; rewrite Ed; reflexivity|].
    split.
    + rewrite (process_force_integrator_on h w U W T). fold err acc i.
      now rewrite Ed, Ef.
    + apply Sf. simpl. unfold acc, clamp_tensor, torch_clamp.
      rewrite !shape_t_map. apply shape_v_op_t; trivial. now rewrite shape_t_map.
Qed.

(** A controller with the integrator in use on a two-component entry: the
    first tick of a fresh controller, written out. *)
Lemma process_force_written_force_witness :
  let c := mkController 1 2 5 3 true (Some 10) (PyNum 0) (PyNum 0) in
  let a := mkAgent [[1; 4]] [[0; 1]] 1 (Some 100) (Some 50) in
  let h := mkHeap c a in
  let err := t_zip Rminus [[1; 4]] [[0; 1]] in
  let d := derivative_term 3 1 err (PyNum 0) in
  let acc := clamp_tensor (v_op_t Rplus (PyNum 0) (t_map (Rmult 1) err)) 10 in
  let i := Tensor (t_map (Rmult (1 / 5)) acc) in
  let force := range_limit (Some 50)
                 (norm_limit (Some 100)
                    (t_map (fun x => 1 * 2 * x) (t_zip Rplus (t_op_v Rplus err i) d))) in
  well_formed c /\ agent_has_shape [2%nat] a /\
  process_force h =
    (Ok tt, mkHeap (with_prev_err (Tensor err) (with_accum_errs (Tensor acc) c))
                   (with_action_u force a)) /\
  shape force = [2%nat].
Proof.
  intros c a h err d acc i force.
  assert (WF : well_formed (self h)).
  { split; [simpl; lra | exists 10; reflexivity]. }
  assert (SA : agent_has_shape [2%nat] (agent h)) by (split; reflexivity).
  split; [exact WF|]. split; [exact SA|].
  destruct (proj2 (process_force_written_force h [2%nat] WF SA I I) eq_refl)
    as (w & W & _ & _ & E & S).
  injection W as <-. split; [exact E | exact S].
Defined.

(** ** C4: the two forms, in double precision *)

Lemma doubles_standard_fields a d kP Ti Td c :
  Doubles.__init__ a d [kP; Ti; Td] "standard" = Ok c ->
  Doubles.ctrl_gain c = kP /\ Doubles.integralTs c = Ti /\ Doubles.derivativeTs c = Td.
Proof.
  unfold Doubles.__init__, Doubles.py_div. simpl.
  destruct (Ti =? 0)%float; simpl.
  - intros [= <-]. auto.
  - destruct (d * kP =? 0)%float; simpl; [discriminate|].
    intros [= <-]. auto.
Qed.

Lemma doubles_parallel_as_standard a d kP kI kD :
  (kP =? 0)%float = false ->
  (kI =? 0)%float = false ->
  Doubles.__init__ a d [kP; kI; kD] "parallel" =
  Doubles.__init__ a d [kP; (kP / kI)%float; (kD / kP)%float] "standard".
Proof.
  intros P I. unfold Doubles.__init__, Doubles.py_div. simpl.
  rewrite I, P. reflexivity.
Qed.

(** In double precision [1 / (1 / 49)] is not 49: the standard form
    [[1, 49, 0]] stores the integral time 49 and the cutoff 392, the
    parallel form [[1, 1/49, 1*0]] stores the next double above 49 and a
    cutoff above 392. *)
Lemma form_equivalence_fails_in_doubles :
  let a := Doubles.mkAgent None in
  let kP := 1%float in
  let Ti := 49%float in
  let Td := 0%float in
  exists c1 c2,
    Doubles.__init__ a 0.125%float [kP; Ti; Td] "standard" = Ok c1 /\
    Doubles.__init__ a 0.125%float [kP; (kP / Ti)%float; (kP * Td)%float] "parallel" = Ok c2 /\
    Doubles.integralTs c1 = 49%float /\
    Doubles.integralTs c2 = (1 / (1 / 49))%float /\
    Doubles.integralTs c1 <> Doubles.integralTs c2 /\
    Doubles.integrator_windup_cutoff c1 <> Doubles.integrator_windup_cutoff c2 /\
    c1 <> c2.
Proof.
  intros a kP Ti Td.
  assert (N : 49%float <> (1 / (1 / 49))%float).
  { intro H. apply (f_equal (fun x => (x =? 49)%float)) in H.
    vm_compute in H. discriminate. }
  eexists; eexists.
  split; [vm_compute; reflexivity|]. split; [vm_compute; reflexivity|].
  split; [reflexivity|]. split; [reflexivity|]. split; [exact N|]. split.
  - intro H.
    apply (f_equal (fun o => match o with
                             | Some x => (x =? 392)%float
                             | None => false
                             end)) in H.
    vm_compute in H. discriminate.
  - intro H. apply (f_equal Doubles.integralTs) in H. exact (N H).
Qed.

(** C4 (amended): for doubles [kP], [Ti], [Td] with [kP] and [kP / Ti] not
    zero, the parallel form [[kP, kP/Ti, kP*Td]] constructs what the standard
    form constructs from the rounded round trips [kP / (kP / Ti)] and
    [(kP * Td) / kP]; when these two are [Ti] and [Td] themselves the two
    forms construct the same controller, every attribute included, and so
    behave alike ever after; and two controllers that both forms did
    construct are the same exactly in that case. *)
Theorem form_equivalence_doubles (a : Doubles.Agent) (d kP Ti Td : float) :
  (kP =? 0)%float = false ->
  (kP / Ti =? 0)%float = false ->
  Doubles.__init__ a d [kP; (kP / Ti)%float; (kP * Td)%float] "parallel" =
  Doubles.__init__ a d [kP; (kP / (kP / Ti))%float; (kP * Td / kP)%float] "standard" /\
  ((kP / (kP / Ti))%float = Ti -> (kP * Td / kP)%float = Td ->
   Doubles.__init__ a d [kP; (kP / Ti)%float; (kP * Td)%float] "parallel" =
   Doubles.__init__ a d [kP; Ti; Td] "standard") /\
  (forall c1 c2,
      Doubles.__init__ a d [kP; Ti; Td] "standard" = Ok c1 ->
      Doubles.__init__ a d [kP; (kP / Ti)%float; (kP * Td)%float] "parallel" = Ok c2 ->
      Doubles.integralTs c1 = Ti /\ Doubles.derivativeTs c1 = Td /\
      Doubles.integralTs c2 = (kP / (kP / Ti))%float /\
      Doubles.derivativeTs c2 = (kP * Td / kP)%float /\
      (c1 = c2 <-> (kP / (kP / Ti))%float = Ti /\ (kP * Td / kP)%float = Td)).
Proof.
  intros P I.
  pose proof (doubles_parallel_as_standard a d kP (kP / Ti)%float (kP * Td)%float P I) as E.
  split; [exact E|]. split.
  - intros RT RD. rewrite E, RT, RD. reflexivity.
  - intros c1 c2 H1 H2.
    destruct (doubles_standard_fields _ _ _ _ _ _ H1) as (_ & T1 & D1).
    rewrite E in H2.
    destruct (doubles_standard_fields _ _ _ _ _ _ H2) as (_ & T2 & D2).
    split; [exact T1|]. split; [exact D1|]. split; [exact T2|]. split; [exact D2|].
    split.
    + intros <-. split; congruence.
    + intros (RT & RD). rewrite RT, RD, H1 in H2. congruence.
Qed.

(** Powers of two divide exactly: [kP = 1], [Ti = 4], [Td = 3]. *)
Lemma form_equivalence_doubles_witness :
  let a := Doubles.mkAgent None in
  (1 =? 0)%float = false /\ (1 / 4 =? 0)%float = false /\
  (1 / (1 / 4))%float = 4%float /\ (1 * 3 / 1)%float = 3%float /\
  Doubles.__init__ a 0.125%float [1%float; (1 / 4)%float; (1 * 3)%float] "parallel" =
  Doubles.__init__ a 0.125%float [1%float; 4%float; 3%float] "standard" /\
  exists c, Doubles.__init__ a 0.125%float [1%float; 4%float; 3%float] "standard" = Ok c.
Proof.
  intro a.
  assert (P : (1 =? 0)%float = false) by reflexivity.
  assert (I : (1 / 4 =? 0)%float = false) by reflexivity.
  assert (RT : (1 / (1 / 4))%float = 4%float) by reflexivity.
  assert (RD : (1 * 3 / 1)%float = 3%float) by reflexivity.
  split; [exact P|]. split; [exact I|]. split; [exact RT|]. split; [exact RD|].
  split.
  - exact (proj1 (proj2 (form_equivalence_doubles a 0.125%float 1%float 4%float 3%float P I))
             RT RD).
  - eexists. vm_compute. reflexivity.
Defined.

(** ** Runs that keep one shape *)

Lemma process_force_as_tick h :
  process_force h = process_force
                      (mkHeap (self h)
                         (set_inputs (action_u (agent h), state_vel (agent h)) (agent h))).
Proof. destruct h as [c [u v m f r]]. reflexivity. Qed.

Lemma process_force_shape s h :
  well_formed (self h) ->
  fits s (accum_errs (self h)) ->
  fits s (prev_err (self h)) ->
  agent_has_shape s (agent h) ->
  well_formed (self (snd (process_force h))) /\
  fits s (accum_errs (self (snd (process_force h)))) /\
  fits s (prev_err (self (snd (process_force h)))) /\
  agent_has_shape s (agent (snd (process_force h))).
Proof.
  intros WF FA FP (Su & Sv).
  destruct (tick_shape s (action_u (agent h), state_vel (agent h)) h WF FA FP Su Sv)
    as (WF' & Sf & (p & Ep & Sp) & FA' & _).
  unfold tick in *. rewrite <- process_force_as_tick in *.
  split; [exact WF'|]. split; [exact FA'|]. split; [rewrite Ep; exact Sp|].
  split; [exact Sf|].
  destruct (process_force_keeps h) as (A & _). rewrite A. exact Sv.
Qed.

Lemma run_shape s ks h :
  well_formed (self h) ->
  fits s (accum_errs (self h)) ->
  fits s (prev_err (self h)) ->
  agent_has_shape s (agent h) ->
  Forall (call_has_shape s) ks ->
  well_formed (self (run ks h)) /\
  fits s (accum_errs (self (run ks h))) /\
  fits s (prev_err (self (run ks h))) /\
  agent_has_shape s (agent (run ks h)).
Proof.
  intros WF FA FP SA All. revert h WF FA FP SA.
  induction All as [|k ks Hk _ IH]; intros h WF FA FP SA; simpl; [auto|].
  destruct k as [| |a'']; simpl.
  - apply IH; simpl; trivial.
  - destruct (process_force_shape s h WF FA FP SA) as (W' & A' & P' & S').
    now apply IH.
  - apply IH; trivial.
Qed.

(** ** No exception after construction *)

(** X4: once the constructor has returned, the two paths of a later call
    that could raise are closed: on every heap reached from the constructed
    controller by [reset], [process_force] and writes of the agent, all on
    tensors of one shape [s], the read of [integrator_windup_cutoff] finds
    the attribute and [1.0 / integralTs] does not divide by zero, so
    [process_force] returns normally, [integralError] returns normally on
    every error of shape [s], and the heap after [process_force] is again of
    shape [s]. *)
Theorem constructed_never_raises (a : Agent) (d : R) (ps : list R) (form : string)
        (c : VelocityController) :
  __init__ a d ps form = Ok c ->
  forall s ks a',
    agent_has_shape s a' ->
    Forall (call_has_shape s) ks ->
    let h := run ks (mkHeap c a') in
    fst (process_force h) = Ok tt /\
    agent_has_shape s (agent (snd (process_force h))) /\
    fits s (accum_errs (self (snd (process_force h)))) /\
    fits s (prev_err (self (snd (process_force h)))) /\
    forall err, shape err = s -> exists i, fst (integralError err h) = Ok i /\ fits s i.
Proof.
  intros H s ks a' SA All h.
  destruct (init_well_formed _ _ _ _ _ H) as (WF0 & A0 & P0).
  destruct (run_shape s ks (mkHeap c a')) as (WF & FA & FP & SA'); simpl; trivial;
    try (rewrite ?A0, ?P0; exact I).
  fold h in WF, FA, FP, SA'.
  destruct (process_force_shape s h WF FA FP SA') as (_ & A' & P' & S').
  split.
  - destruct (process_force_on_well_formed h WF) as (i & h1 & e & h2 & _ & _ & E).
    now rewrite E.
  - split; [exact S'|]. split; [exact A'|]. split; [exact P'|].
    intros err Se. unfold well_formed in WF.
    destruct (use_integrator (self h)) eqn:U.
    + destruct WF as (T & w & W).
      rewrite (integralError_value err h w U W T). eexists. split; [reflexivity|].
      simpl. unfold clamp_tensor, torch_clamp. rewrite !shape_t_map.
      apply shape_v_op_t; trivial. now rewrite shape_t_map.
    + rewrite (integralError_off err h U). eexists. split; [reflexivity | exact I].
Qed.

Lemma constructed_never_raises_witness :
  let a := mkAgent [[1]] [[0]] 1 (Some 3) None in
  let c := mkController (1/10) 1 5 0 true (Some (0.5 * 3 * 5 / (1/10 * 1)))
                        (PyNum 0) (PyNum 0) in
  let ks := [ProcessForce; Reset; WriteAgent (mkAgent [[2]] [[1]] 1 None None)] in
  __init__ a (1/10) [1; 5; 0] "standard" = Ok c /\
  agent_has_shape [1%nat] a /\
  Forall (call_has_shape [1%nat]) ks /\
  fst (process_force (run ks (mkHeap c a))) = Ok tt.
Proof.
  intros a c ks.
  assert (H : __init__ a (1/10) [1; 5; 0] "standard" = Ok c).
  { rewrite init_standard. unfold finish_init. decide_reals. reflexivity. }
  assert (SA : agent_has_shape [1%nat] a) by (split; reflexivity).
  assert (All : Forall (call_has_shape [1%nat]) ks).
  { repeat constructor. }
  split; [exact H|]. split; [exact SA|]. split; [exact All|].
  exact (proj1 (constructed_never_raises a (1/10) [1; 5; 0] "standard" c H
                  [1%nat] ks a SA All)).
Defined.

(** ** The parallel form as a standard form, in double precision *)

(** X5: in double precision, with [kP] not zero, the parallel form
    [[kP, kI, kD]] constructs exactly what the standard form constructs from
    [[kP, Ti, kD / kP]], [Ti] being 0.0 when [kI == 0] and the rounded
    [kP / kI] otherwise; and when neither [kI] nor [kP / kI] is zero the
    controller has the integrator in use with the cutoff
    [0.5 * fmax * (kP / kI) / (dt * kP)], computed in that order. *)
Theorem parallel_as_standard (a : Doubles.Agent) (d kP kI kD : float) :
  (kP =? 0)%float = false ->
  Doubles.__init__ a d [kP; kI; kD] "parallel" =
  Doubles.__init__ a d
    [kP; (if (kI =? 0)%float then 0%float else (kP / kI)%float); (kD / kP)%float]
    "standard" /\
  ((kI =? 0)%float = false -> (kP / kI =? 0)%float = false ->
   forall c, Doubles.__init__ a d [kP; kI; kD] "parallel" = Ok c ->
             Doubles.use_integrator c = true /\
             Doubles.integralTs c = (kP / kI)%float /\
             Doubles.integrator_windup_cutoff c =
             Some (0.5 * (match Doubles.max_f a with Some f => f | None => 2%float end)
                   * (kP / kI) / (d * kP))%float).
Proof.
  intro P. split.
  - unfold Doubles.__init__, Doubles.py_div. simpl.
    destruct (kI =? 0)%float eqn:I; simpl; rewrite ?I, P; reflexivity.
  - intros I Z c. unfold Doubles.__init__, Doubles.py_div. simpl.
    rewrite I, P. simpl. rewrite Z.
    destruct (d * kP =? 0)%float; simpl; [discriminate|].
    intros [= <-]. simpl. auto.
Qed.

Lemma parallel_as_standard_witness :
  let a := Doubles.mkAgent (Some 3%float) in
  (2 =? 0)%float = false /\ (4 =? 0)%float = false /\ (2 / 4 =? 0)%float = false /\
  Doubles.__init__ a 0.125%float [2%float; 4%float; 6%float] "parallel" =
  Doubles.__init__ a 0.125%float
    [2%float; (if (4 =? 0)%float then 0%float else (2 / 4)%float); (6 / 2)%float] "standard" /\
  exists c, Doubles.__init__ a 0.125%float [2%float; 4%float; 6%float] "parallel" = Ok c /\
            Doubles.use_integrator c = true /\
            Doubles.integrator_windup_cutoff c = Some (0.5 * 3 * (2 / 4) / (0.125 * 2))%float.
Proof.
  intro a.
  assert (P : (2 =? 0)%float = false) by reflexivity.
  assert (I : (4 =? 0)%float = false) by reflexivity.
  assert (Z : (2 / 4 =? 0)%float = false) by reflexivity.
  destruct (parallel_as_standard a 0.125%float 2%float 4%float 6%float P) as (E & W).
  split; [exact P|]. split; [exact I|]. split; [exact Z|]. split; [exact E|].
  eexists. split; [vm_compute; reflexivity|].
  destruct (W I Z _ eq_refl) as (U & _ & C). split; [exact U | exact C].
Defined.

(** ** The size of the integral term *)

(** X6: for a controller constructed with positive [kP] and [integralTs]
    and a cutoff [w] that is not negative, on every heap reached by calls on
    tensors of one shape [s] and for every error of that shape,
    [integralError] returns a tensor of shape [s] whose every element [x]
    has [kP * x] within [kP * (1 / integralTs * w)] in magnitude: the bound
    is the cutoff taken through the operations the code applies to the
    accumulated error. *)
Theorem integral_term_bound (a : Agent) (d : R) (ps : list R) (form : string)
        (c : VelocityController) (w : R) :
  __init__ a d ps form = Ok c ->
  0 < ctrl_gain c -> 0 < integralTs c ->
  integrator_windup_cutoff c = Some w -> 0 <= w ->
  forall s ks a' err,
    agent_has_shape s a' ->
    Forall (call_has_shape s) ks ->
    shape err = s ->
    exists i,
      fst (integralError err (run ks (mkHeap c a'))) = Ok (Tensor i) /\
      shape i = s /\
      Forall (Forall (fun x => Rabs (ctrl_gain c * x)
                               <= ctrl_gain c * (1 / integralTs c * w))) i.
Proof.
  intros H G T W Wpos s ks a' err SA All Se.
  destruct (init_well_formed _ _ _ _ _ H) as (WF0 & A0 & P0).
  destruct (init_integrator_iff _ _ _ _ _ H) as (_ & UW & _).
  assert (U : use_integrator c = true) by (apply UW; eauto).
  destruct (run_shape s ks (mkHeap c a')) as (_ & FA & _ & _); simpl; trivial;
    try (rewrite ?A0, ?P0; exact I).
  destruct (run_same_parameters ks (mkHeap c a')) as (_ & _ & T' & _ & U' & W').
  simpl in T', U', W'.
  set (h := run ks (mkHeap c a')) in *.
  eexists. split; [|split].
  - rewrite (integralError_value err h w); [reflexivity | congruence | congruence |].
    rewrite T'. lra.
  - unfold clamp_tensor, torch_clamp. rewrite !shape_t_map.
    apply shape_v_op_t; trivial. now rewrite shape_t_map.
  - rewrite T'. unfold clamp_tensor, torch_clamp. rewrite t_map_t_map.
    apply Forall_t_map. intro x.
    assert (B : - w <= clamp (- w) w x <= w) by (apply clamp_in_range; lra).
    set (q := clamp (- w) w x) in *.
    assert (K : 0 < 1 / integralTs c).
    { unfold Rdiv. rewrite Rmult_1_l. now apply Rinv_0_lt_compat. }
    apply Rabs_le. split.
    + replace (- (ctrl_gain c * (1 / integralTs c * w)))
        with (ctrl_gain c * (1 / integralTs c * - w)) by ring.
      apply Rmult_le_compat_l; [lra|]. apply Rmult_le_compat_l; lra.
    + apply Rmult_le_compat_l; [lra|]. apply Rmult_le_compat_l; lra.
Qed.

Lemma integral_term_bound_witness :
  let a := mkAgent [[1]] [[0]] 1 (Some 3) None in
  let c := mkController (1/10) 1 5 0 true (Some (0.5 * 3 * 5 / (1/10 * 1)))
                        (PyNum 0) (PyNum 0) in
  __init__ a (1/10) [1; 5; 0] "standard" = Ok c /\
  0 <= 0.5 * 3 * 5 / (1/10 * 1) /\
  exists i,
    fst (integralError [[100]] (run [ProcessForce] (mkHeap c a))) = Ok (Tensor i) /\
    shape i = [1%nat] /\
    Forall (Forall (fun x => Rabs (1 * x) <= 1 * (1 / 5 * (0.5 * 3 * 5 / (1/10 * 1))))) i.
Proof.
  intros a c.
  assert (H : __init__ a (1/10) [1; 5; 0] "standard" = Ok c).
  { rewrite init_standard. unfold finish_init. decide_reals. reflexivity. }
  assert (W : 0 <= 0.5 * 3 * 5 / (1/10 * 1)) by lra.
  split; [exact H|]. split; [exact W|].
  apply (integral_term_bound a (1/10) [1; 5; 0] "standard" c _ H); trivial.
  - simpl. lra.
  - simpl. lra.
  - split; reflexivity.
  - repeat constructor.
Defined.

(** ** The integrator under an error that does not change sign *)

Lemma clamp_grows (w old y : R) :
  Rabs old <= w -> 0 <= y ->
  old <= clamp (- w) w (old + y) <= w /\ (old = w -> clamp (- w) w (old + y) = w).
Proof.
  intros B Y.
  assert (B' : - w <= old <= w).
  { unfold Rabs in B. destruct (Rcase_abs old); lra. }
  split; [|intro E]; decide_clamps.
Qed.

Lemma rows_grow (w k : R) (r e : row) :
  List.length r = List.length e ->
  Forall (fun x => Rabs x <= w) r ->
  Forall (fun y => 0 <= k * y) e ->
  Forall2 (fun old new => old <= new <= w /\ (old = w -> new = w))
          r (zip_with (fun x y => clamp (- w) w (x + k * y)) r e).
Proof.
  intros L B. revert e L. induction B as [|x r Hx _ IH]; intros [|y e]; simpl;
    try discriminate; [constructor|].
  intros [= L] Y. inversion Y as [|? ? Hy Ye]; subst.
  constructor; [now apply clamp_grows | now apply IH].
Qed.

Lemma tensors_grow (w k : R) (t e : tensor) :
  shape t = shape e ->
  Forall (Forall (fun x => Rabs x <= w)) t ->
  Forall (Forall (fun y => 0 <= k * y)) e ->
  Forall2 (Forall2 (fun old new => old <= new <= w /\ (old = w -> new = w)))
          t (t_zip (fun x y => clamp (- w) w (x + k * y)) t e).
Proof.
  unfold shape, t_zip. intros S B. revert e S.
  induction B as [|r t Hr _ IH]; intros [|re e]; simpl; try discriminate; [constructor|].
  intros [= L S] Y. inversion Y as [|? ? Hy Ye]; subst.
  constructor; [now apply rows_grow | now apply IH].
Qed.

(** X7: with the integrator in use and [accum_errs] a tensor within the
    cutoff [w], a call of [process_force] whose error has every element of
    [dt * error] non-negative leaves every element of [accum_errs] at least
    what it was and at most [w], and an element that was at the cutoff stays
    at the cutoff: the integrator never decreases under such an error, and
    once saturated it stays saturated. *)
Theorem integrator_grows_and_stays_saturated (h : Heap) (w : R) (t : tensor) :
  use_integrator (self h) = true ->
  integrator_windup_cutoff (self h) = Some w ->
  accum_errs (self h) = Tensor t ->
  bounded w (Tensor t) ->
  agent_has_shape (shape t) (agent h) ->
  Forall (Forall (fun y => 0 <= dt (self h) * y))
         (t_zip Rminus (action_u (agent h)) (state_vel (agent h))) ->
  exists t',
    accum_errs (self (snd (process_force h))) = Tensor t' /\
    shape t' = shape t /\
    Forall2 (Forall2 (fun old new => old <= new <= w /\ (old = w -> new = w))) t t'.
Proof.
  intros U W A B (Su & Sv) Y.
  set (err := t_zip Rminus (action_u (agent h)) (state_vel (agent h))) in *.
  assert (Se : shape err = shape t) by (unfold err; rewrite shape_t_zip; congruence).
  rewrite process_force_accum, (integralError_accum _ _ w U W), A. fold err.
  cbn [v_op_t]. unfold clamp_tensor, torch_clamp.
  rewrite t_zip_t_map_r, t_map_t_zip.
  eexists. split; [reflexivity|]. split.
  - now apply shape_t_zip.
  - apply tensors_grow; trivial. now symmetry.
Qed.

Lemma integrator_grows_and_stays_saturated_witness :
  let h := mkHeap (mkController (1/10) 1 5 0 true (Some 3) (Tensor [[3; -1]]) (PyNum 0))
                  (mkAgent [[7; 8]] [[5; 8]] 1 None None) in
  bounded 3 (Tensor [[3; -1]]) /\
  exists t',
    accum_errs (self (snd (process_force h))) = Tensor t' /\
    shape t' = [2%nat] /\
    Forall2 (Forall2 (fun old new => old <= new <= 3 /\ (old = 3 -> new = 3)))
            [[3; -1]] t'.
Proof.
  intro h.
  assert (B : bounded 3 (Tensor [[3; -1]])).
  { simpl. constructor; [|constructor].
    constructor; [apply Rabs_le; lra|]. constructor; [apply Rabs_le; lra | constructor]. }
  split; [exact B|].
  apply (integrator_grows_and_stays_saturated h 3 [[3; -1]] eq_refl eq_refl eq_refl B).
  - split; reflexivity.
  - unfold t_zip; simpl. constructor; [|constructor].
    constructor; [lra|]. constructor; [lra | constructor].
Defined.

(** ** The force on a repeated error *)

(** X14: when the error of a call equals the error stored by the call
    before, the derivative term is zero and the force is the limited
    [mass * kP * error] with the integrator off, and the limited
    [mass * kP * (error + (1 / integralTs) * accum_errs)] with the integrator
    in use, [accum_errs] being the accumulated error that this call stores. *)
Theorem repeated_error_force (h : Heap) (s : list nat) :
  well_formed (self h) ->
  agent_has_shape s (agent h) ->
  fits s (accum_errs (self h)) ->
  let err := t_zip Rminus (action_u (agent h)) (state_vel (agent h)) in
  prev_err (self h) = Tensor err ->
  let kP := ctrl_gain (self h) in
  let h' := snd (process_force h) in
  (use_integrator (self h) = false ->
   action_u (agent h') = limits (agent h) (t_map (fun x => mass (agent h) * kP * x) err)) /\
  (use_integrator (self h) = true ->
   exists acc,
     accum_errs (self h') = Tensor acc /\
     shape acc = s /\
     action_u (agent h') =
     limits (agent h)
       (t_map (fun x => mass (agent h) * kP * x)
          (t_zip Rplus err (t_map (Rmult (1 / integralTs (self h))) acc)))).
Proof.
  intros WF (Su & Sv) FA err P kP h'.
  assert (Se : shape err = s) by (unfold err; rewrite shape_t_zip; congruence).
  assert (D0 : forall X, shape X = s ->
               t_zip Rplus X
                 (t_map (fun x => x / dt (self h))
                    (t_map (Rmult (derivativeTs (self h)))
                       (t_op_v Rminus err (prev_err (self h))))) = X).
  { intros X SX. rewrite P. cbn [t_op_v].
    rewrite t_zip_diag, !t_map_t_map, t_zip_t_map_r.
    rewrite (t_zip_ignore_r _ (fun x => x)).
    - apply t_map_id.
    - congruence.
    - intros x y. unfold Rdiv, Rminus. ring. }
  split; intro U; unfold h'.
  - rewrite (process_force_integrator_off h U). fold err. simpl.
    rewrite D0; [|now rewrite shape_t_map].
    rewrite !t_map_t_map. f_equal. apply t_map_ext. intro x. unfold kP. ring.
  - unfold well_formed in WF. rewrite U in WF. destruct WF as (T & w & W).
    rewrite (process_force_integrator_on h w U W T). fold err. simpl.
    set (acc := clamp_tensor _ w).
    assert (Sa : shape acc = s).
    { unfold acc, clamp_tensor, torch_clamp. rewrite shape_t_map.
      apply shape_v_op_t; trivial. now rewrite shape_t_map. }
    exists acc. split; [reflexivity|]. split; [exact Sa|].
    rewrite D0.
    + rewrite t_map_t_map. f_equal. apply t_map_ext. intro x. unfold kP. ring.
    + rewrite shape_t_zip; [exact Se | rewrite shape_t_map; congruence].
Qed.

Lemma repeated_error_force_witness :
  let c := mkController (1/10) 2 5 3 true (Some 10) (Tensor [[1; 1]])
                        (Tensor [[1 - 0; 4 - 1]]) in
  let a := mkAgent [[1; 4]] [[0; 1]] 1 None None in
  let h := mkHeap c a in
  well_formed c /\ agent_has_shape [2%nat] a /\
  prev_err c = Tensor (t_zip Rminus [[1; 4]] [[0; 1]]) /\
  exists acc,
    accum_errs (self (snd (process_force h))) = Tensor acc /\
    shape acc = [2%nat] /\
    action_u (agent (snd (process_force h))) =
    limits a (t_map (fun x => 1 * 2 * x)
                (t_zip Rplus (t_zip Rminus [[1; 4]] [[0; 1]]) (t_map (Rmult (1 / 5)) acc))).
Proof.
  intros c a h.
  assert (WF : well_formed (self h)).
  { split; [simpl; lra | exists 10; reflexivity]. }
  assert (SA : agent_has_shape [2%nat] (agent h)) by (split; reflexivity).
  assert (P : prev_err (self h) = Tensor (t_zip Rminus [[1; 4]] [[0; 1]])) by reflexivity.
  split; [exact WF|]. split; [exact SA|]. split; [exact P|].
  exact (proj2 (repeated_error_force h [2%nat] WF SA eq_refl P) eq_refl).
Defined.
